(** * iago: the ELF loader of [exe/elf.go]

    A shallow embedding of the ELF image loader: word-size and byte-order
    detection, bounds-checked field reads, ISA selection, the walk over the
    program-header table and the slicing of executable segments into an
    instruction stream.

    Conventions of the embedding.
    - Go's [uint] and [int] are the 64-bit types of the usual targets: a
      [uint] is a [Z] in [0, 2^64) with wrap-around written out ([wrap]),
      and [int(x)] is the two's-complement reading ([toInt]).
    - A [[]byte] is a slice: the bytes below its length and the part of the
      backing array between its length and its capacity.
    - A Go function returning [(T, error)] returns a pair whose second
      component is [None] for [nil]; a run-time panic is an outcome of its
      own, it is not an error value.
    - [term.Println] is an output effect: the functions that print return
      the printed lines next to their outcome. *)

From Stdlib Require Import ZArith Ascii String List Lia Bool.
From Stdlib.Strings Require Import Byte.
From Stdlib.Numbers Require Import HexadecimalString.
From stdpp Require Import base option list gmap strings.

Local Open Scope string_scope.
Local Open Scope list_scope.
Local Open Scope Z_scope.

(** ** Machine integers *)

Definition uintSize : Z := 64.

(** Arithmetic on [uint] is modulo [2^64]. *)
Definition wrap (z : Z) : Z := z mod 2 ^ uintSize.

(** [int(x)] for a [uint] [x]. *)
Definition toInt (z : Z) : Z :=
  if z <? 2 ^ (uintSize - 1) then z else z - 2 ^ uintSize.

Definition byteVal (b : byte) : Z := Z.of_N (Byte.to_N b).

(** ** Outcomes: a returned value, a run-time panic, or a loop that has not
    finished within the fuel it was given *)

Inductive panic : Set :=
  | IndexOutOfRange
  | SliceBoundsOutOfRange
  | NilDereference.

Inductive outcome (A : Type) : Type :=
  | Ret (a : A)
  | Panic (p : panic)
  | OutOfFuel.

Arguments Ret {A} a.
Arguments Panic {A} p.
Arguments OutOfFuel {A}.

Definition bind {A B : Type} (m : outcome A) (k : A -> outcome B) : outcome B :=
  match m with
  | Ret a => k a
  | Panic p => Panic p
  | OutOfFuel => OutOfFuel
  end.

Notation "'let*' x ':=' m 'in' k" := (bind m (fun x => k))
  (at level 10, x pattern, m at level 100, k at level 200).

(** ** Errors

    [errors.New] builds an error from its message; [errors.ErrUnsupported]
    is the sentinel of the standard library. *)

Inductive error : Set :=
  | New (msg : string)
  | ErrUnsupported.

(** ** Byte slices *)

Record ByteSlice : Set := mkSlice {
  elems : list byte;   (* s[0 .. len(s)) *)
  spare : list byte    (* backing array from len(s) up to cap(s) *)
}.

Definition backing (s : ByteSlice) : list byte := elems s ++ spare s.
Definition len (s : ByteSlice) : Z := Z.of_nat (length (elems s)).
Definition cap (s : ByteSlice) : Z := Z.of_nat (length (backing s)).

(** [s[i]]: panics unless [0 <= i < len(s)]. *)
Definition index (s : ByteSlice) (i : Z) : outcome Z :=
  if (0 <=? i) && (i <? len s)
  then Ret (byteVal (nth (Z.to_nat i) (elems s) x00))
  else Panic IndexOutOfRange.

(** [s[lo:hi]]: panics unless [0 <= lo <= hi <= cap(s)]. *)
Definition reslice (s : ByteSlice) (lo hi : Z) : outcome ByteSlice :=
  if (0 <=? lo) && (lo <=? hi) && (hi <=? cap s)
  then Ret {| elems := take (Z.to_nat (hi - lo)) (drop (Z.to_nat lo) (backing s));
              spare := drop (Z.to_nat hi) (backing s) |}
  else Panic SliceBoundsOutOfRange.

(** ** encoding/binary and encoding/hex *)

Inductive ByteOrder : Set := BigEndian | LittleEndian.

(** [b[0] | b[1]<<8 | ...] *)
Fixpoint leValue (bs : list byte) : Z :=
  match bs with
  | [] => 0
  | b :: rest => Z.lor (byteVal b) (Z.shiftl (leValue rest) 8)
  end.

(** [... | b[n-2]<<8 | b[n-1]] *)
Definition beValue (bs : list byte) : Z :=
  fold_left (fun acc b => Z.lor (Z.shiftl acc 8) (byteVal b)) bs 0.

(** [byteOrder.Uint16], [Uint32], [Uint64]: read the first [n] bytes of the
    slice, panic when it is shorter. *)
Definition UintN (n : Z) (order : ByteOrder) (b : ByteSlice) : outcome Z :=
  if len b <? n then Panic IndexOutOfRange
  else
    let bs := take (Z.to_nat n) (elems b) in
    Ret (match order with
         | LittleEndian => leValue bs
         | BigEndian => beValue bs
         end).

Definition hextable : string := "0123456789abcdef".

Definition hexDigit (v : Z) : ascii :=
  match String.get (Z.to_nat v) hextable with
  | Some c => c
  | None => "0"%char
  end.

(** [hex.EncodeToString]: two lower-case digits per byte, high nibble
    first. *)
Fixpoint EncodeToString (src : list byte) : string :=
  match src with
  | [] => EmptyString
  | b :: rest =>
      String (hexDigit (Z.shiftr (byteVal b) 4))
        (String (hexDigit (Z.land (byteVal b) 0x0f)) (EncodeToString rest))
  end.

(** ** The ISA package *)

Inductive ISA : Set := X86 | ARM | Thumb | AArch64.

(** Modelled from the spec: [isa.ISA.InstructionSize], whose package is not
    part of the sources at hand. The instruction width is 1 for the
    variable-width instruction set, 4 for the default mode and 2 for the
    compact mode of the dual-mode one, and 4 for the remaining fixed-width
    one. *)
Definition InstructionSize (a : ISA) : Z :=
  match a with
  | X86 => 1
  | ARM => 4
  | Thumb => 2
  | AArch64 => 4
  end.

Record Instruction : Set := mkInstruction {
  Op : string;
  Vaddr : Z
}.

(** ** Field tables *)

Record elfField : Set := mkField {
  offset32 : Z;
  offset64 : Z;
  size32 : Z;
  size64 : Z
}.

Record segment : Set := mkSegment {
  VAddr : Z;
  Offset : Z;
  Size : Z
}.

Definition elfHeader : gmap string elfField :=
  list_to_map
    [ ("arch", mkField 0x04 0x04 1 1);
      ("endianness", mkField 0x05 0x05 1 1);
      ("isa", mkField 0x12 0x12 1 1);
      ("entry point", mkField 0x18 0x18 4 8);
      ("program header table offset", mkField 0x1c 0x20 4 8);
      ("program header table entry size", mkField 0x2a 0x36 2 2);
      ("program header table num entries", mkField 0x2c 0x38 2 2) ].

Definition programHeaderEntry : gmap string elfField :=
  list_to_map
    [ ("segment type", mkField 0x00 0x00 4 4);
      ("flags", mkField 0x18 0x04 4 4);
      ("segment offset", mkField 0x04 0x08 4 8);
      ("virtual address", mkField 0x08 0x10 4 8);
      ("file size", mkField 0x10 0x20 4 8);
      ("mem size", mkField 0x14 0x28 4 8) ].

(** A lookup of a missing key yields the zero value of the element type. *)
Definition lookupField (targetHeader : gmap string elfField) (field : string) : elfField :=
  default (mkField 0 0 0 0) (targetHeader !! field).


Definition supportedISAs : gmap Z ISA :=
  list_to_map
    [ (0x03, X86);
      (0x3e, X86);
      (0x28, ARM);
      (0xb7, AArch64) ].

(** [if err != nil { return zero, err }] after a call that returns
    [(value, err)]. *)
Definition orReturn {A B : Type} (zero : B) (m : outcome (A * option error))
    (k : A -> outcome (B * option error)) : outcome (B * option error) :=
  let* r := m in
  match snd r with
  | Some err => Ret (zero, Some err)
  | None => k (fst r)
  end.

Notation "'try*' x ':=' m 'else' z 'in' k" := (orReturn z m (fun x => k))
  (at level 10, x pattern, m at level 100, z at level 9, k at level 200).

(** ** The image *)

Section Image.

(** The trie package is outside the loader: its node type and its
    constructor [trie.Trie] are parameters of the development. *)
Context {TrieNode : Type}.
Variable Trie : list Instruction -> option ISA -> option TrieNode.

Record Elf : Type := mkElf {
  arch : Z;                       (* either 32 or 64 *)
  endianness : string;            (* either "big" or "little" *)
  isa : option ISA;               (* an interface value, nil until set *)
  contents : ByteSlice;
  programHeaderTableOffset : Z;
  reverseInstructionTrie : option TrieNode
}.

Definition withISA (e : Elf) (a : ISA) : Elf :=
  mkElf (arch e) (endianness e) (Some a) (contents e)
        (programHeaderTableOffset e) (reverseInstructionTrie e).

Definition withTrie (e : Elf) (t : option TrieNode) : Elf :=
  mkElf (arch e) (endianness e) (isa e) (contents e)
        (programHeaderTableOffset e) t.

Definition elfArch (elfContents : ByteSlice) : outcome (Z * option error) :=
  let archOffset := 0x04 in
  if len elfContents <? archOffset then
    Ret (0, Some (New "invalid ELF file: file size less than offset to arch field"))
  else
    let* b := index elfContents archOffset in
    if b =? 1 then Ret (32, None)
    else if b =? 2 then Ret (64, None)
    else Ret (0, Some (New "invalid ELF file: arch field not 32 or 64")).

(** The message quotes the two accepted values. *)
Definition endiannessMessage : string :=
  let q := String (ascii_of_nat 34) EmptyString in
  "invalid ELF file: endianness field not " +:+ q +:+ "little" +:+ q
    +:+ " or " +:+ q +:+ "big" +:+ q.

Definition elfEndianness (elfContents : ByteSlice) : outcome (string * option error) :=
  let endiannessOffset := 0x05 in
  if len elfContents <? endiannessOffset then
    Ret (EmptyString,
         Some (New "invalid ELF file: file size less than offset to endianness field"))
  else
    let* b := index elfContents endiannessOffset in
    if b =? 1 then Ret ("little", None)
    else if b =? 2 then Ret ("big", None)
    else Ret (EmptyString, Some (New endiannessMessage)).

(** A method call on a [binary.ByteOrder] interface value that is still
    nil panics. *)
Definition callUint (n : Z) (byteOrder : option ByteOrder) (value : ByteSlice) : outcome Z :=
  match byteOrder with
  | None => Panic NilDereference
  | Some order => UintN n order value
  end.

Definition fieldValue (e : Elf) (field : string) (targetHeader : gmap string elfField)
    (baseOffset : Z) : outcome (Z * option error) :=
  let fieldInfo := lookupField targetHeader field in
  let offset :=
    if arch e =? 32 then offset32 fieldInfo
    else if arch e =? 64 then offset64 fieldInfo
    else 0 in
  let size :=
    if arch e =? 32 then size32 fieldInfo
    else if arch e =? 64 then size64 fieldInfo
    else 0 in
  let offset := wrap (offset + baseOffset) in
  if len (contents e) <? toInt (wrap (offset + size)) then
    Ret (0, Some (New "invalid ELF file: value offset outside file bounds"))
  else
    let* value := reslice (contents e) offset (wrap (offset + size)) in
    if size =? 1 then
      let* v := index value 0 in Ret (v, None)
    else
      let byteOrder :=
        if String.eqb (endianness e) "big" then Some BigEndian
        else if String.eqb (endianness e) "little" then Some LittleEndian
        else None in
      if size =? 2 then
        let* v := callUint 2 byteOrder value in Ret (v, None)
      else if size =? 4 then
        let* v := callUint 4 byteOrder value in Ret (v, None)
      else if size =? 8 then
        let* v := callUint 8 byteOrder value in Ret (v, None)
      else Ret (0, None).

Definition armNotice : string :=
  "ARM binary detected. To target thumb mode re-load using the --thumb flag".
Definition thumbIgnoredNotice : string :=
  "--thumb flag ignored: --thumb flag should only be used on ARM binaries".

(** [setISA] stores the selected ISA in the image it is called on: the
    image comes back next to the error. *)
Definition setISA (e : Elf) (thumb : bool) : list string * outcome (Elf * option error) :=
  match fieldValue e "isa" elfHeader 0 with
  | Ret (elfIsaValue, Some err) => ([], Ret (e, Some err))
  | Ret (elfIsaValue, None) =>
      match supportedISAs !! elfIsaValue with
      | Some elfIsa =>
          if elfIsaValue =? 0x28 then
            if thumb then ([], Ret (withISA e Thumb, None))
            else ([armNotice], Ret (withISA e elfIsa, None))
          else
            if thumb then ([thumbIgnoredNotice], Ret (withISA e elfIsa, None))
            else ([], Ret (withISA e elfIsa, None))
      | None => ([], Ret (e, Some ErrUnsupported))
      end
  | Panic p => ([], Panic p)
  | OutOfFuel => ([], OutOfFuel)
  end.

(** The body of [for i := range numEntries]: [remaining] entries are left,
    the next one has index [i]. *)
Fixpoint locateLoop (e : Elf) (programHeaderTableOffset programHeaderTableEntrySize : Z)
    (remaining : nat) (i : Z) (segments : list segment)
    : outcome (list segment * option error) :=
  match remaining with
  | O => Ret (segments, None)
  | S remaining' =>
      let entryOffset := wrap (programHeaderTableOffset + wrap (i * programHeaderTableEntrySize)) in
      try* flags := fieldValue e "flags" programHeaderEntry entryOffset else [] in
      let executableFlagMask := 0x1 in
      if Z.land flags executableFlagMask >? 0 then
        try* segmentOffset := fieldValue e "segment offset" programHeaderEntry entryOffset else [] in
        try* virtualAddress := fieldValue e "virtual address" programHeaderEntry entryOffset else [] in
        try* sizeInFile := fieldValue e "file size" programHeaderEntry entryOffset else [] in
        locateLoop e programHeaderTableOffset programHeaderTableEntrySize remaining' (i + 1)
          (segments ++ [mkSegment virtualAddress segmentOffset sizeInFile])
      else
        locateLoop e programHeaderTableOffset programHeaderTableEntrySize remaining' (i + 1)
          segments
  end.

Definition locateExecutableSegments (e : Elf) : outcome (list segment * option error) :=
  try* programHeaderTableOffset :=
    fieldValue e "program header table offset" elfHeader 0 else [] in
  try* programHeaderTableEntrySize :=
    fieldValue e "program header table entry size" elfHeader 0 else [] in
  try* numEntries :=
    fieldValue e "program header table num entries" elfHeader 0 else [] in
  if numEntries =? 0 then
    Ret ([], Some (New "invalid ELF file: empty program header table"))
  else
    locateLoop e programHeaderTableOffset programHeaderTableEntrySize
      (Z.to_nat numEntries) 0 [].

(** [for i := 0; i < len(segmentContents); i += instructionSize]. *)
Fixpoint chunkLoop (fuel : nat) (segmentContents : ByteSlice) (instructionSize : Z)
    (segVAddr : Z) (i : Z) (instructionStream : list Instruction)
    : outcome (list Instruction) :=
  match fuel with
  | O => OutOfFuel
  | S fuel' =>
      if i <? len segmentContents then
        let* chunk := reslice segmentContents i (i + instructionSize) in
        let newInstruction :=
          {| Op := EncodeToString (elems chunk);
             Vaddr := wrap (segVAddr + i) |} in
        chunkLoop fuel' segmentContents instructionSize segVAddr (i + instructionSize)
          (instructionStream ++ [newInstruction])
      else Ret instructionStream
  end.

(** [for _, segment := range executableSegments]. *)
Fixpoint segmentLoop (elfContents : ByteSlice) (instructionSize : Z)
    (executableSegments : list segment) (instructionStream : list Instruction)
    : outcome (list Instruction) :=
  match executableSegments with
  | [] => Ret instructionStream
  | seg :: rest =>
      let* segmentContents :=
        reslice elfContents (Offset seg) (wrap (Offset seg + Size seg)) in
      let* instructionStream :=
        chunkLoop (S (Z.to_nat (len segmentContents))) segmentContents instructionSize
          (VAddr seg) 0 instructionStream in
      segmentLoop elfContents instructionSize rest instructionStream
  end.

Definition InstructionStream (e : Elf) (executableSegments : list segment)
    : outcome (list Instruction) :=
  match isa e with
  | None => Panic NilDereference
  | Some a => segmentLoop (contents e) (InstructionSize a) executableSegments []
  end.

Definition NewElf (elfContents : ByteSlice) (args : gmap string string)
    : list string * outcome (option Elf * option error) :=
  (* to detect thumb mode in ARM binaries *)
  let thumb := bool_decide (is_Some (args !! "---thumb")) in
  match elfArch elfContents with
  | Ret (_, Some err) => ([], Ret (None, Some err))
  | Ret (arch, None) =>
      match elfEndianness elfContents with
      | Ret (_, Some err) => ([], Ret (None, Some err))
      | Ret (endianness, None) =>
          let elf := mkElf arch endianness None elfContents 0 None in
          match setISA elf thumb with
          | (out, Ret (_, Some err)) => (out, Ret (None, Some err))
          | (out, Ret (elf, None)) =>
              (out,
               try* executableSegments := locateExecutableSegments elf else None in
               let* instructionStream := InstructionStream elf executableSegments in
               if Z.of_nat (length instructionStream) =? 0 then
                 Ret (None, Some (New "no executable segments found"))
               else
                 Ret (Some (withTrie elf (Trie instructionStream (isa elf))), None))
          | (out, Panic p) => (out, Panic p)
          | (out, OutOfFuel) => (out, OutOfFuel)
          end
      | Panic p => ([], Panic p)
      | OutOfFuel => ([], OutOfFuel)
      end
  | Panic p => ([], Panic p)
  | OutOfFuel => ([], OutOfFuel)
  end.

(** *** The stages of image construction, as the specification words them

    Image construction runs five steps in order; the first one that reports
    an error ends it. [LoadFails] lists the ways a step can end the
    construction with an error, [LoadSucceeds] is the one way in which every
    step succeeds. *)

Inductive LoadFails (elfContents : ByteSlice) (thumb : bool)
    : list string -> error -> Prop :=
  | ArchFails x err :
      elfArch elfContents = Ret (x, Some err) ->
      LoadFails elfContents thumb [] err
  | EndiannessFails a x err :
      elfArch elfContents = Ret (a, None) ->
      elfEndianness elfContents = Ret (x, Some err) ->
      LoadFails elfContents thumb [] err
  | ISAFails a en out x err :
      elfArch elfContents = Ret (a, None) ->
      elfEndianness elfContents = Ret (en, None) ->
      setISA (mkElf a en None elfContents 0 None) thumb = (out, Ret (x, Some err)) ->
      LoadFails elfContents thumb out err
  | LocateFails a en out e x err :
      elfArch elfContents = Ret (a, None) ->
      elfEndianness elfContents = Ret (en, None) ->
      setISA (mkElf a en None elfContents 0 None) thumb = (out, Ret (e, None)) ->
      locateExecutableSegments e = Ret (x, Some err) ->
      LoadFails elfContents thumb out err
  | StreamEmpty a en out e segs :
      elfArch elfContents = Ret (a, None) ->
      elfEndianness elfContents = Ret (en, None) ->
      setISA (mkElf a en None elfContents 0 None) thumb = (out, Ret (e, None)) ->
      locateExecutableSegments e = Ret (segs, None) ->
      InstructionStream e segs = Ret [] ->
      LoadFails elfContents thumb out (New "no executable segments found").

Inductive LoadSucceeds (elfContents : ByteSlice) (thumb : bool)
    : list string -> Elf -> Prop :=
  | AllSteps a en out e segs ins :
      elfArch elfContents = Ret (a, None) ->
      elfEndianness elfContents = Ret (en, None) ->
      setISA (mkElf a en None elfContents 0 None) thumb = (out, Ret (e, None)) ->
      locateExecutableSegments e = Ret (segs, None) ->
      InstructionStream e segs = Ret ins ->
      ins <> [] ->
      LoadSucceeds elfContents thumb out (withTrie e (Trie ins (isa e))).

(** *** The walk over the program-header table, as the specification words it

    The entry of index [index] starts at [tableOffset + index * entrySize],
    in [uint] arithmetic. An entry whose flags have bit 0 clear contributes
    nothing; an entry whose flags have bit 0 set contributes the segment
    made of its file offset, virtual address and file size. *)

Definition entryOffsetOf (tableOffset entrySize index : Z) : Z :=
  wrap (tableOffset + wrap (index * entrySize)).

Inductive Contributes (e : Elf) (entryOffset : Z) : list segment -> Prop :=
  | NotExecutable flags :
      fieldValue e "flags" programHeaderEntry entryOffset = Ret (flags, None) ->
      Z.testbit flags 0 = false ->
      Contributes e entryOffset []
  | Executable flags fileOffset virtualAddress fileSize :
      fieldValue e "flags" programHeaderEntry entryOffset = Ret (flags, None) ->
      Z.testbit flags 0 = true ->
      fieldValue e "segment offset" programHeaderEntry entryOffset
        = Ret (fileOffset, None) ->
      fieldValue e "virtual address" programHeaderEntry entryOffset
        = Ret (virtualAddress, None) ->
      fieldValue e "file size" programHeaderEntry entryOffset = Ret (fileSize, None) ->
      Contributes e entryOffset [mkSegment virtualAddress fileOffset fileSize].

(** The walk that leaves out the entry of index [k]. *)
Definition locateSkipping (e : Elf) (tableOffset entrySize numEntries k : Z)
    : outcome (list segment * option error) :=
  try* before := locateLoop e tableOffset entrySize (Z.to_nat k) 0 [] else [] in
  locateLoop e tableOffset entrySize (Z.to_nat (numEntries - k - 1)) (k + 1) before.

End Image.

Arguments LoadFails : clear implicits.

(** *** The instruction stream, as the specification words it

    A segment of [size] bytes cut at every multiple of the instruction
    width [w] has [chunkCount size w] chunk starts, the last chunk being
    shorter than [w] when [w] does not divide [size]. The instruction taken
    at a chunk start is made of the [w] bytes of the buffer found there, in
    file order, and of the segment's virtual address moved by the start. *)

Definition chunkCount (size w : Z) : nat := Z.to_nat ((size + w - 1) / w).

Fixpoint chunkStarts (n : nat) (i w : Z) : list Z :=
  match n with
  | O => []
  | S n' => i :: chunkStarts n' (i + w) w
  end.

Definition instructionAt (bytes : list byte) (w : Z) (seg : segment) (start : Z)
    : Instruction :=
  {| Op := EncodeToString (take (Z.to_nat w) (drop (Z.to_nat (Offset seg + start)) bytes));
     Vaddr := wrap (VAddr seg + start) |}.

Definition segmentChunks (elfContents : ByteSlice) (w : Z) (seg : segment)
    : list Instruction :=
  map (instructionAt (backing elfContents) w seg)
      (chunkStarts (chunkCount (Size seg) w) 0 w).

(** The three fields of a segment are [uint] values. *)
Definition isUint (z : Z) : Prop := 0 <= z < 2 ^ 64.

Definition uintSegment (seg : segment) : Prop :=
  isUint (VAddr seg) /\ isUint (Offset seg) /\ isUint (Size seg).

(** A segment lies inside the file. *)
Definition inFile (elfContents : ByteSlice) (seg : segment) : Prop :=
  0 <= Offset seg /\ 0 <= Size seg /\ Offset seg + Size seg <= len elfContents.

(** *** Unsigned integers as base-256 numerals

    The value of a sequence of bytes read as a numeral in base 256, least
    significant byte first. *)

Definition base256 (bs : list byte) : Z :=
  fold_right (fun b acc => byteVal b + 256 * acc) 0 bs.

(** The bytes of the field that starts at [offset] and has [size] bytes. *)
Definition fieldBytes (elfContents : ByteSlice) (offset size : Z) : list byte :=
  take (Z.to_nat size) (drop (Z.to_nat offset) (elems elfContents)).

(** *** Reading an opcode back

    The byte sequence a string of lower-case hex digits stands for: the
    inverse of [EncodeToString], used to tell the byte sequences of two
    opcodes apart. *)

Fixpoint digitIndex (c : ascii) (digits : string) (i : N) : option N :=
  match digits with
  | EmptyString => None
  | String d rest => if Ascii.eqb c d then Some i else digitIndex c rest (N.succ i)
  end.

Definition decodePair (high low : ascii) : option byte :=
  match digitIndex high hextable 0, digitIndex low hextable 0 with
  | Some h, Some l => Byte.of_N (16 * h + l)
  | _, _ => None
  end.

Fixpoint decodeHex (s : string) : option (list byte) :=
  match s with
  | EmptyString => Some []
  | String high (String low rest) =>
      match decodePair high low, decodeHex rest with
      | Some b, Some bs => Some (b :: bs)
      | _, _ => None
      end
  | String _ EmptyString => None
  end.

(** ** The find command ([cli.Find]) *)

Module cli.
Section Find.

(** The lookup method of the trie is outside these sources: it is a
    parameter, given the trie of the current file, the target and the ISA. *)
Context {TrieNode : Type}.
Variable TrieFind : option TrieNode -> string -> option ISA -> outcome (Z * option error).

Record GlobalState : Type := mkGlobalState {
  CurrentFile : option (@Elf TrieNode)   (* an interface value, nil when no file is loaded *)
}.

Record Find : Type := mkFind {
  args : gmap string string
}.

Definition ValidArgs (f : Find) : bool :=
  if negb (Z.of_nat (size (args f)) =? 1) then false
  else bool_decide (is_Some (args f !! "default")).

(** [fmt.Sprintf] with the verb [%x] on an unsigned integer: lower-case
    hex digits without leading zeros. *)
Definition formatHex (v : Z) : string :=
  NilZero.string_of_uint (N.to_hex_uint (Z.to_N v)).

(** [Execute] receives a pointer to the global state; the lines it prints
    come back next to its outcome. *)
Definition Execute (f : Find) (globalState : option GlobalState)
    : list string * outcome (option error) :=
  let target := default EmptyString (args f !! "default") in
  match globalState with
  | None => ([], Panic NilDereference)
  | Some state =>
      match CurrentFile state with
      | None => ([], Ret (Some (New "no target file specified")))
      | Some currFile =>
          match TrieFind (reverseInstructionTrie currFile) target (isa currFile) with
          | Ret (vaddr, Some err) => ([], Ret (Some err))
          | Ret (vaddr, None) =>
              (["virtual address: " +:+ formatHex vaddr], Ret None)
          | Panic p => ([], Panic p)
          | OutOfFuel => ([], OutOfFuel)
          end
      end
  end.

End Find.
End cli.

(** ** Concrete images

    Byte-for-byte images used to run the loader. *)

(** Only the magic number: four bytes. *)
Definition magicOnly : list byte := [x7f; x45; x4c; x46].

(** A 64-bit little-endian x86-64 header whose program-header-table offset is
    [0x8000000000000000]; one entry is declared, none is present. *)
Definition hugeTableOffset : list byte :=
  [ x7f; x45; x4c; x46; x02; x01; x01; x00; x00; x00; x00; x00; x00; x00; x00; x00;
    x00; x00; x3e; x00; x00; x00; x00; x00; x00; x00; x00; x00; x00; x00; x00; x00;
    x00; x00; x00; x00; x00; x00; x00; x80; x00; x00; x00; x00; x00; x00; x00; x00;
    x00; x00; x00; x00; x00; x00; x38; x00; x01; x00; x00; x00; x00; x00; x00; x00 ].

(** A 64-bit little-endian x86-64 header that declares an empty table at an
    offset far beyond the end of the file. *)
Definition emptyTable : list byte :=
  [ x7f; x45; x4c; x46; x02; x01; x01; x00; x00; x00; x00; x00; x00; x00; x00; x00;
    x00; x00; x3e; x00; x00; x00; x00; x00; x00; x00; x00; x00; x00; x00; x00; x00;
    x00; x00; x01; x00; x00; x00; x00; x00; x00; x00; x00; x00; x00; x00; x00; x00;
    x00; x00; x00; x00; x00; x00; x38; x00; x00; x00; x00; x00; x00; x00; x00; x00 ].

(** A 32-bit little-endian ARM image: one executable segment of 8 bytes at
    file offset [0x54], loaded at [0x8000]. *)
Definition armImage : list byte :=
  [ x7f; x45; x4c; x46; x01; x01; x01; x00; x00; x00; x00; x00; x00; x00; x00; x00;
    x00; x00; x28; x00; x00; x00; x00; x00; x00; x00; x00; x00; x34; x00; x00; x00;
    x00; x00; x00; x00; x00; x00; x00; x00; x00; x00; x20; x00; x01; x00; x00; x00;
    x00; x00; x00; x00; x01; x00; x00; x00; x54; x00; x00; x00; x00; x80; x00; x00;
    x00; x00; x00; x00; x08; x00; x00; x00; x08; x00; x00; x00; x05; x00; x00; x00;
    x00; x00; x00; x00; x01; x10; xa0; xe1; x1e; xff; x2f; xe1 ].

(** The same header with an ISA identifier outside the supported set (MIPS). *)
Definition mipsImage : list byte :=
  [ x7f; x45; x4c; x46; x01; x01; x01; x00; x00; x00; x00; x00; x00; x00; x00; x00;
    x00; x00; x08; x00; x00; x00; x00; x00; x00; x00; x00; x00; x34; x00; x00; x00;
    x00; x00; x00; x00; x00; x00; x00; x00; x00; x00; x20; x00; x01; x00; x00; x00;
    x00; x00; x00; x00; x01; x00; x00; x00; x54; x00; x00; x00; x00; x80; x00; x00;
    x00; x00; x00; x00; x08; x00; x00; x00; x08; x00; x00; x00; x05; x00; x00; x00;
    x00; x00; x00; x00; x01; x10; xa0; xe1; x1e; xff; x2f; xe1 ].

(** A 64-bit little-endian x86-64 image of [0x88] bytes whose only entry is
    executable and declares [0x100] bytes at file offset [0x78]. *)
Definition oversizedSegment : list byte :=
  [ x7f; x45; x4c; x46; x02; x01; x01; x00; x00; x00; x00; x00; x00; x00; x00; x00;
    x00; x00; x3e; x00; x00; x00; x00; x00; x00; x00; x00; x00; x00; x00; x00; x00;
    x40; x00; x00; x00; x00; x00; x00; x00; x00; x00; x00; x00; x00; x00; x00; x00;
    x00; x00; x00; x00; x00; x00; x38; x00; x01; x00; x00; x00; x00; x00; x00; x00;
    x01; x00; x00; x00; x05; x00; x00; x00; x78; x00; x00; x00; x00; x00; x00; x00;
    x00; x10; x00; x00; x00; x00; x00; x00; x00; x00; x00; x00; x00; x00; x00; x00;
    x00; x01; x00; x00; x00; x00; x00; x00; x00; x01; x00; x00; x00; x00; x00; x00;
    x00; x00; x00; x00; x00; x00; x00; x00; x10; x11; x12; x13; x14; x15; x16; x17;
    x18; x19; x1a; x1b; x1c; x1d; x1e; x1f ].

(** A 32-bit little-endian ARM image with an executable segment of 5 bytes
    at file offset [0x54], followed by three more bytes. *)
Definition armRemainder : list byte :=
  [ x7f; x45; x4c; x46; x01; x01; x01; x00; x00; x00; x00; x00; x00; x00; x00; x00;
    x00; x00; x28; x00; x00; x00; x00; x00; x00; x00; x00; x00; x34; x00; x00; x00;
    x00; x00; x00; x00; x00; x00; x00; x00; x00; x00; x20; x00; x01; x00; x00; x00;
    x00; x00; x00; x00; x01; x00; x00; x00; x54; x00; x00; x00; x00; x80; x00; x00;
    x00; x00; x00; x00; x05; x00; x00; x00; x05; x00; x00; x00; x05; x00; x00; x00;
    x00; x00; x00; x00; x01; x10; xa0; xe1; x1e; xff; x2f; xe1 ].

(** The same image cut at the end of its segment. *)
Definition armRemainderCut : list byte := take 0x59 armRemainder.

(** A 64-bit little-endian x86-64 image with three entries: an executable
    one, a read-write one and a second executable one, of two bytes each. *)
Definition threeEntries : list byte :=
  [ x7f; x45; x4c; x46; x02; x01; x01; x00; x00; x00; x00; x00; x00; x00; x00; x00;
    x00; x00; x3e; x00; x00; x00; x00; x00; x00; x00; x00; x00; x00; x00; x00; x00;
    x40; x00; x00; x00; x00; x00; x00; x00; x00; x00; x00; x00; x00; x00; x00; x00;
    x00; x00; x00; x00; x00; x00; x38; x00; x03; x00; x00; x00; x00; x00; x00; x00;
    x01; x00; x00; x00; x05; x00; x00; x00; xe8; x00; x00; x00; x00; x00; x00; x00;
    x00; x10; x00; x00; x00; x00; x00; x00; x00; x00; x00; x00; x00; x00; x00; x00;
    x02; x00; x00; x00; x00; x00; x00; x00; x02; x00; x00; x00; x00; x00; x00; x00;
    x00; x00; x00; x00; x00; x00; x00; x00; x01; x00; x00; x00; x06; x00; x00; x00;
    xea; x00; x00; x00; x00; x00; x00; x00; x00; x20; x00; x00; x00; x00; x00; x00;
    x00; x00; x00; x00; x00; x00; x00; x00; x02; x00; x00; x00; x00; x00; x00; x00;
    x02; x00; x00; x00; x00; x00; x00; x00; x00; x00; x00; x00; x00; x00; x00; x00;
    x01; x00; x00; x00; x01; x00; x00; x00; xec; x00; x00; x00; x00; x00; x00; x00;
    x00; x30; x00; x00; x00; x00; x00; x00; x00; x00; x00; x00; x00; x00; x00; x00;
    x02; x00; x00; x00; x00; x00; x00; x00; x02; x00; x00; x00; x00; x00; x00; x00;
    x00; x00; x00; x00; x00; x00; x00; x00; x90; xc3; x00; x00; x5d; xc3 ].

(** A 64-bit little-endian x86-64 image of [0x80] bytes with two entries: the
    first is executable and maps the first four bytes of the file, the
    second is read-only and the file ends right after its flags. *)
Definition truncatedEntry : list byte :=
  [ x7f; x45; x4c; x46; x02; x01; x01; x00; x00; x00; x00; x00; x00; x00; x00; x00;
    x00; x00; x3e; x00; x00; x00; x00; x00; x00; x00; x00; x00; x00; x00; x00; x00;
    x40; x00; x00; x00; x00; x00; x00; x00; x00; x00; x00; x00; x00; x00; x00; x00;
    x00; x00; x00; x00; x00; x00; x38; x00; x02; x00; x00; x00; x00; x00; x00; x00;
    x01; x00; x00; x00; x05; x00; x00; x00; x00; x00; x00; x00; x00; x00; x00; x00;
    x00; x00; x40; x00; x00; x00; x00; x00; x00; x00; x00; x00; x00; x00; x00; x00;
    x04; x00; x00; x00; x00; x00; x00; x00; x04; x00; x00; x00; x00; x00; x00; x00;
    x00; x00; x00; x00; x00; x00; x00; x00; x01; x00; x00; x00; x04; x00; x00; x00 ].

(** The scenario of the specification: a 64-bit little-endian x86-64 image
    whose only entry, at [0x50], is executable and maps the 16 bytes at file
    offset [0x40] to [0x1000]. *)
Definition scenarioImage : list byte :=
  [ x7f; x45; x4c; x46; x02; x01; x01; x00; x00; x00; x00; x00; x00; x00; x00; x00;
    x00; x00; x3e; x00; x00; x00; x00; x00; x00; x00; x00; x00; x00; x00; x00; x00;
    x50; x00; x00; x00; x00; x00; x00; x00; x00; x00; x00; x00; x00; x00; x00; x00;
    x00; x00; x00; x00; x00; x00; x38; x00; x01; x00; x00; x00; x00; x00; x00; x00;
    xa0; xa1; xa2; xa3; xa4; xa5; xa6; xa7; xa8; xa9; xaa; xab; xac; xad; xae; xaf;
    x01; x00; x00; x00; x05; x00; x00; x00; x40; x00; x00; x00; x00; x00; x00; x00;
    x00; x10; x00; x00; x00; x00; x00; x00; x00; x00; x00; x00; x00; x00; x00; x00;
    x10; x00; x00; x00; x00; x00; x00; x00; x10; x00; x00; x00; x00; x00; x00; x00;
    x00; x00; x00; x00; x00; x00; x00; x00 ].

(** The ARM image in big-endian form: the same fields, most significant byte
    first. *)
Definition armImageBE : list byte :=
  [ x7f; x45; x4c; x46; x01; x02; x01; x00; x00; x00; x00; x00; x00; x00; x00; x00;
    x00; x00; x28; x00; x00; x00; x00; x00; x00; x00; x00; x00; x00; x00; x00; x34;
    x00; x00; x00; x00; x00; x00; x00; x00; x00; x00; x00; x20; x00; x01; x00; x00;
    x00; x00; x00; x00; x00; x00; x00; x01; x00; x00; x00; x54; x00; x00; x80; x00;
    x00; x00; x00; x00; x00; x00; x00; x08; x00; x00; x00; x08; x00; x00; x00; x05;
    x00; x00; x00; x00; xe1; xa0; x10; x01; xe1; x2f; xff; x1e ].

(** A 64-bit little-endian x86-64 image whose only entry is readable and
    writable, not executable. *)
Definition dataOnly : list byte :=
  [ x7f; x45; x4c; x46; x02; x01; x01; x00; x00; x00; x00; x00; x00; x00; x00; x00;
    x00; x00; x3e; x00; x00; x00; x00; x00; x00; x00; x00; x00; x00; x00; x00; x00;
    x40; x00; x00; x00; x00; x00; x00; x00; x00; x00; x00; x00; x00; x00; x00; x00;
    x00; x00; x00; x00; x00; x00; x38; x00; x01; x00; x00; x00; x00; x00; x00; x00;
    x01; x00; x00; x00; x06; x00; x00; x00; x78; x00; x00; x00; x00; x00; x00; x00;
    x00; x20; x00; x00; x00; x00; x00; x00; x00; x00; x00; x00; x00; x00; x00; x00;
    x04; x00; x00; x00; x00; x00; x00; x00; x04; x00; x00; x00; x00; x00; x00; x00;
    x00; x00; x00; x00; x00; x00; x00; x00; x01; x02; x03; x04 ].

(** A 32-bit little-endian ARM header that declares [0xffff] entries of
    [0xffff] bytes at offset [0xffffffff]. *)
Definition farTable32 : list byte :=
  [ x7f; x45; x4c; x46; x01; x01; x01; x00; x00; x00; x00; x00; x00; x00; x00; x00;
    x00; x00; x28; x00; x00; x00; x00; x00; x00; x00; x00; x00; xff; xff; xff; xff;
    x00; x00; x00; x00; x00; x00; x00; x00; x00; x00; xff; xff; xff; xff; x00; x00;
    x00; x00; x00; x00 ].

(** A stand-in for [trie.Trie] when the loader is run on these images. *)
Definition noTrie (s : list Instruction) (a : option ISA) : option unit := Some tt.

(** A stand-in for the lookup of the trie: every target is found at
    [0x1004]. *)
Definition foundAt1004 (t : option unit) (target : string) (a : option ISA)
    : outcome (Z * option error) := Ret (0x1004, None).

(** ** Properties *)

Section Proofs.
Context {TrieNode : Type}.
Variable Trie : list Instruction -> option ISA -> option TrieNode.
Abbreviation Image := (@Elf TrieNode).

(** *** Helper facts *)

(** Case analysis on the next field read of the goal. *)
Ltac read_case :=
  match goal with
  | |- context [fieldValue ?e ?f ?t ?b] =>
      destruct (fieldValue e f t b) as [[? [?|]]|?|];
      cbn [bind snd fst]; try reflexivity
  end.


Lemma supportedISAs_lookup (v : Z) :
  supportedISAs !! v =
    if v =? 0x03 then Some X86
    else if v =? 0x3e then Some X86
    else if v =? 0x28 then Some ARM
    else if v =? 0xb7 then Some AArch64
    else None.
Proof.
  unfold supportedISAs. cbn [list_to_map foldr uncurry fst snd].
  repeat (rewrite lookup_insert; case_decide; [subst; reflexivity|]).
  rewrite lookup_empty.
  repeat match goal with
  | |- context [?a =? ?b] => destruct (Z.eqb_spec a b); [congruence|]
  end.
  reflexivity.
Qed.

Lemma fieldValue_withISA (e : Image) a field table base :
  fieldValue (withISA e a) field table base = fieldValue e field table base.
Proof. reflexivity. Qed.

Lemma wrap_range z : 0 <= wrap z < 2 ^ 64.
Proof. unfold wrap, uintSize. apply Z.mod_pos_bound. lia. Qed.

Lemma wrap_small z : 0 <= z < 2 ^ 64 -> wrap z = z.
Proof. intros H. unfold wrap, uintSize. apply Z.mod_small. exact H. Qed.

Lemma toInt_negative z : 2 ^ 63 <= z < 2 ^ 64 -> toInt z < 0.
Proof.
  intros H. unfold toInt, uintSize. change (64 - 1) with 63.
  destruct (Z.ltb_spec z (2 ^ 63)); lia.
Qed.

Lemma toInt_small z : 0 <= z < 2 ^ 63 -> toInt z = z.
Proof.
  intros H. unfold toInt, uintSize. change (64 - 1) with 63.
  destruct (Z.ltb_spec z (2 ^ 63)); lia.
Qed.

Lemma len_nonneg s : 0 <= len s.
Proof. unfold len. lia. Qed.

Lemma len_le_cap s : len s <= cap s.
Proof. unfold len, cap, backing. rewrite length_app. lia. Qed.

(** A slice expression in range. *)
Lemma reslice_ok s lo hi :
  0 <= lo <= hi -> hi <= cap s ->
  exists sub, reslice s lo hi = Ret sub
    /\ len sub = hi - lo
    /\ cap sub = cap s - lo
    /\ backing sub = drop (Z.to_nat lo) (backing s).
Proof.
  intros Hlo Hhi. unfold reslice.
  destruct (Z.leb_spec 0 lo); [|lia].
  destruct (Z.leb_spec lo hi); [|lia].
  destruct (Z.leb_spec hi (cap s)); [|lia].
  cbn [andb]. eexists. split; [reflexivity|].
  assert (Hb : backing
            {| elems := take (Z.to_nat (hi - lo)) (drop (Z.to_nat lo) (backing s));
               spare := drop (Z.to_nat hi) (backing s) |}
          = drop (Z.to_nat lo) (backing s)).
  { unfold backing at 1. cbn [elems spare].
    replace (Z.to_nat hi) with (Z.to_nat lo + Z.to_nat (hi - lo))%nat by lia.
    rewrite <- drop_drop. apply take_drop. }
  unfold cap in *. rewrite Hb. unfold len. cbn [elems].
  rewrite length_take, !length_drop. repeat split; lia.
Qed.

(** The conversion to [int] defeats the bounds check of [fieldValue] as
    soon as the end of the field is [2^63] or more: the check passes and the
    slice expression panics. *)
Lemma fieldValue_check_bypassed (e : Image) field table base :
  arch e = 64 ->
  cap (contents e) < 2 ^ 63 ->
  2 ^ 63 <= wrap (wrap (offset64 (lookupField table field) + base)
                  + size64 (lookupField table field)) ->
  fieldValue e field table base = Panic SliceBoundsOutOfRange.
Proof.
  intros Harch Hcap Hbig. unfold fieldValue. rewrite Harch. cbn [Z.eqb Pos.eqb].
  set (hi := wrap (_ + size64 _)) in *.
  assert (Hhi : 0 <= hi < 2 ^ 64) by apply wrap_range.
  pose proof (toInt_negative hi ltac:(lia)) as Hneg.
  pose proof (len_nonneg (contents e)) as Hlen.
  destruct (Z.ltb_spec (len (contents e)) (toInt hi)); [lia|].
  unfold reslice.
  destruct (Z.leb_spec hi (cap (contents e))); [lia|].
  rewrite andb_false_r. reflexivity.
Qed.

(** Below [2^63] the bounds check of [fieldValue] is exact: a field that
    ends after the end of the buffer is reported as an error, any other
    field is decoded, and nothing panics. *)
Lemma fieldValue_in_range (e : Image) field table base off size :
  (arch e = 32 /\ off = offset32 (lookupField table field)
               /\ size = size32 (lookupField table field))
  \/ (arch e = 64 /\ off = offset64 (lookupField table field)
                  /\ size = size64 (lookupField table field)) ->
  endianness e = "big" \/ endianness e = "little" ->
  size = 1 \/ size = 2 \/ size = 4 \/ size = 8 ->
  0 <= off + base -> off + base + size < 2 ^ 63 ->
  (len (contents e) < off + base + size ->
     fieldValue e field table base
       = Ret (0, Some (New "invalid ELF file: value offset outside file bounds")))
  /\ (off + base + size <= len (contents e) ->
     exists v, fieldValue e field table base = Ret (v, None)).
Proof.
  intros Harch Hend Hsize Hlo Hhi.
  pose proof (len_le_cap (contents e)) as Hlc.
  assert (Hshape : fieldValue e field table base =
    if len (contents e) <? off + base + size then
      Ret (0, Some (New "invalid ELF file: value offset outside file bounds"))
    else
      let* value := reslice (contents e) (off + base) (off + base + size) in
      if size =? 1 then let* v := index value 0 in Ret (v, None)
      else
        let byteOrder :=
          if String.eqb (endianness e) "big" then Some BigEndian
          else if String.eqb (endianness e) "little" then Some LittleEndian
          else None in
        if size =? 2 then let* v := callUint 2 byteOrder value in Ret (v, None)
        else if size =? 4 then let* v := callUint 4 byteOrder value in Ret (v, None)
        else if size =? 8 then let* v := callUint 8 byteOrder value in Ret (v, None)
        else Ret (0, None)).
  { unfold fieldValue.
    destruct Harch as [(Ha & -> & ->) | (Ha & -> & ->)]; rewrite Ha; cbn [Z.eqb Pos.eqb];
      rewrite (wrap_small (_ + base)) by lia;
      rewrite (wrap_small (_ + base + _)) by lia;
      rewrite toInt_small by lia; reflexivity. }
  rewrite Hshape. clear Hshape. split; intros Hlen.
  - destruct (Z.ltb_spec (len (contents e)) (off + base + size)); [reflexivity|lia].
  - destruct (Z.ltb_spec (len (contents e)) (off + base + size)); [lia|].
    destruct (reslice_ok (contents e) (off + base) (off + base + size))
      as (value & -> & Hvlen & _ & _); [lia | lia |].
    cbn [bind]. cbv zeta.
    assert (Horder : exists order,
      (if String.eqb (endianness e) "big" then Some BigEndian
       else if String.eqb (endianness e) "little" then Some LittleEndian
       else None) = Some order).
    { destruct Hend as [-> | ->]; eexists; reflexivity. }
    destruct Horder as [order ->].
    unfold callUint, UintN, index.
    destruct Hsize as [-> | [-> | [-> | ->]]]; cbn [Z.eqb Pos.eqb].
    + destruct (Z.ltb_spec 0 (len value)); [|lia]. cbn. eexists. reflexivity.
    + destruct (Z.ltb_spec (len value) 2); [lia|]. cbn [bind]. eexists. reflexivity.
    + destruct (Z.ltb_spec (len value) 4); [lia|]. cbn [bind]. eexists. reflexivity.
    + destruct (Z.ltb_spec (len value) 8); [lia|]. cbn [bind]. eexists. reflexivity.
Qed.

(** *** Word-size detection *)

(** C3 (the code departs from it). [elfArch] answers 32 and 64 for the
    bytes 1 and 2 at offset 4 and reports an error for any other byte and
    for a buffer of fewer than four bytes; a buffer of exactly four bytes,
    which has no byte at offset 4, passes the length test and the read
    panics. *)
Theorem elfArch_cases (elfContents : ByteSlice) :
  (len elfContents < 4 ->
     elfArch elfContents =
       Ret (0, Some (New "invalid ELF file: file size less than offset to arch field")))
  /\ (len elfContents = 4 -> elfArch elfContents = Panic IndexOutOfRange)
  /\ (4 < len elfContents ->
      exists b, index elfContents 4 = Ret b /\
        elfArch elfContents =
          if b =? 1 then Ret (32, None)
          else if b =? 2 then Ret (64, None)
          else Ret (0, Some (New "invalid ELF file: arch field not 32 or 64"))).
Proof.
  unfold elfArch. repeat split.
  - intros H. destruct (Z.ltb_spec (len elfContents) 4); [reflexivity|lia].
  - intros H. unfold index. rewrite H. reflexivity.
  - intros H. destruct (Z.ltb_spec (len elfContents) 4); [lia|].
    unfold index. destruct (Z.ltb_spec 4 (len elfContents)); [|lia].
    cbn [Z.leb Z.compare andb bind]. eexists. split; reflexivity.
Qed.

(** *** Field reads *)

(** C5 (the code departs from it). Loading the header whose table offset is
    [2^63] does not fail with the out-of-bounds error: the read of the first
    entry's flags passes the bounds test and panics in the slice
    expression. *)
Theorem NewElf_huge_table_offset_panics :
  NewElf Trie (mkSlice hugeTableOffset []) ∅ = ([], Panic SliceBoundsOutOfRange).
Proof. vm_compute. reflexivity. Qed.

(** *** Image construction *)

Lemma NewElf_of_fails c (args : gmap string string) out err :
  LoadFails TrieNode c (bool_decide (is_Some (args !! "---thumb"))) out err ->
  NewElf Trie c args = (out, Ret (None, Some err)).
Proof.
  intros H. unfold NewElf.
  destruct H as [x err Ha | a x err Ha He | a en out x err Ha He Hi
                | a en out e x err Ha He Hi Hl | a en out e segs Ha He Hi Hl Hs].
  - rewrite Ha. reflexivity.
  - rewrite Ha, He. reflexivity.
  - rewrite Ha, He, Hi. reflexivity.
  - rewrite Ha, He, Hi. unfold orReturn. rewrite Hl. reflexivity.
  - rewrite Ha, He, Hi. unfold orReturn. rewrite Hl. cbn [bind snd fst].
    rewrite Hs. reflexivity.
Qed.

Lemma NewElf_of_succeeds c (args : gmap string string) out elf :
  LoadSucceeds Trie c (bool_decide (is_Some (args !! "---thumb"))) out elf ->
  NewElf Trie c args = (out, Ret (Some elf, None)).
Proof.
  intros H. unfold NewElf.
  destruct H as [a en out e segs ins Ha He Hi Hl Hs Hne].
  rewrite Ha, He, Hi. unfold orReturn. rewrite Hl. cbn [bind snd fst].
  rewrite Hs. cbn [bind]. destruct ins as [|i ins]; [congruence|]. reflexivity.
Qed.

Lemma NewElf_inv c (args : gmap string string) out img err :
  NewElf Trie c args = (out, Ret (img, err)) ->
  let thumb := bool_decide (is_Some (args !! "---thumb")) in
  (img = None /\ exists er, err = Some er /\ LoadFails TrieNode c thumb out er)
  \/ (err = None /\ exists elf, img = Some elf /\ LoadSucceeds Trie c thumb out elf).
Proof.
  intros H thumb. unfold NewElf in H. fold thumb in H.
  destruct (elfArch c) as [[a [ea|]]|p|] eqn:Ha; try discriminate.
  { inversion H; subst. left. split; [reflexivity|]. eexists. split; [reflexivity|].
    eapply ArchFails; eauto. }
  destruct (elfEndianness c) as [[en [ee|]]|p|] eqn:He; try discriminate.
  { inversion H; subst. left. split; [reflexivity|]. eexists. split; [reflexivity|].
    eapply EndiannessFails; eauto. }
  destruct (setISA _ thumb) as [o [[e [ei|]]|p|]] eqn:Hi; try discriminate.
  { inversion H; subst. left. split; [reflexivity|]. eexists. split; [reflexivity|].
    eapply ISAFails; eauto. }
  unfold orReturn in H.
  destruct (locateExecutableSegments e) as [[segs [el|]]|p|] eqn:Hl;
    cbn [bind snd fst] in H; try discriminate.
  { inversion H; subst. left. split; [reflexivity|]. eexists. split; [reflexivity|].
    eapply LocateFails; eauto. }
  destruct (InstructionStream e segs) as [ins|p|] eqn:Hs; cbn [bind] in H;
    try discriminate.
  destruct ins as [|i ins].
  - inversion H; subst. left. split; [reflexivity|]. eexists. split; [reflexivity|].
    eapply StreamEmpty; eauto.
  - inversion H; subst. right. split; [reflexivity|]. eexists. split; [reflexivity|].
    eapply AllSteps; eauto; discriminate.
Qed.

(** C8. Image construction is all or nothing: an error reported by any of
    the five steps makes [NewElf] return that error and a nil image; the
    image is returned, with a nil error, when every step succeeded; and
    every return of [NewElf] is one of these two. *)
Theorem NewElf_all_or_nothing (elfContents : ByteSlice) (args : gmap string string) :
  let thumb := bool_decide (is_Some (args !! "---thumb")) in
  (forall out err, LoadFails TrieNode elfContents thumb out err ->
     NewElf Trie elfContents args = (out, Ret (None, Some err)))
  /\ (forall out elf, LoadSucceeds Trie elfContents thumb out elf ->
     NewElf Trie elfContents args = (out, Ret (Some elf, None)))
  /\ (forall out img err, NewElf Trie elfContents args = (out, Ret (img, err)) ->
       (img = None
          /\ exists er, err = Some er /\ LoadFails TrieNode elfContents thumb out er)
       \/ (err = None /\ exists elf, img = Some elf
             /\ LoadSucceeds Trie elfContents thumb out elf)).
Proof.
  intros thumb. split; [|split].
  - intros out err H. apply NewElf_of_fails. exact H.
  - intros out elf H. apply NewElf_of_succeeds. exact H.
  - intros out img err H. apply NewElf_inv. exact H.
Qed.

(** *** ISA selection *)

Lemma setISA_cases (e : Image) (thumb : bool) v :
  fieldValue e "isa" elfHeader 0 = Ret (v, None) ->
  setISA e thumb =
    if v =? 0x28 then
      if thumb then ([], Ret (withISA e Thumb, None))
      else ([armNotice], Ret (withISA e ARM, None))
    else if (v =? 0x03) || (v =? 0x3e) then
      (if thumb then [thumbIgnoredNotice] else [], Ret (withISA e X86, None))
    else if v =? 0xb7 then
      (if thumb then [thumbIgnoredNotice] else [], Ret (withISA e AArch64, None))
    else ([], Ret (e, Some ErrUnsupported)).
Proof.
  intros H. unfold setISA. rewrite H, supportedISAs_lookup.
  destruct (Z.eqb_spec v 0x03); [subst; destruct thumb; reflexivity|].
  destruct (Z.eqb_spec v 0x3e); [subst; destruct thumb; reflexivity|].
  destruct (Z.eqb_spec v 0x28); [subst; destruct thumb; reflexivity|].
  destruct (Z.eqb_spec v 0xb7); [subst; destruct thumb; reflexivity|].
  reflexivity.
Qed.

(** C7. With the ISA identifier [v] read from the header: ARM with the hint
    selects Thumb; ARM without it selects ARM and prints the advisory; any
    other supported identifier selects its own descriptor, the hint being
    ignored with a notice; an identifier outside the supported set makes
    [setISA], and with it [NewElf], fail with [ErrUnsupported]. The image
    [NewElf] returns carries the selected ISA. *)
Theorem setISA_selection (elfContents : ByteSlice) (args : gmap string string) a en v :
  elfArch elfContents = Ret (a, None) ->
  elfEndianness elfContents = Ret (en, None) ->
  let e : Image := mkElf a en None elfContents 0 None in
  let thumb := bool_decide (is_Some (args !! "---thumb")) in
  fieldValue e "isa" elfHeader 0 = Ret (v, None) ->
  (v = 0x28 -> thumb = true ->
     setISA e thumb = ([], Ret (withISA e Thumb, None)))
  /\ (v = 0x28 -> thumb = false ->
     setISA e thumb = ([armNotice], Ret (withISA e ARM, None)))
  /\ (v = 0x03 \/ v = 0x3e ->
     setISA e thumb =
       (if thumb then [thumbIgnoredNotice] else [], Ret (withISA e X86, None)))
  /\ (v = 0xb7 ->
     setISA e thumb =
       (if thumb then [thumbIgnoredNotice] else [], Ret (withISA e AArch64, None)))
  /\ (v <> 0x03 -> v <> 0x3e -> v <> 0x28 -> v <> 0xb7 ->
     setISA e thumb = ([], Ret (e, Some ErrUnsupported))
     /\ NewElf Trie elfContents args = ([], Ret (None, Some ErrUnsupported)))
  /\ (forall out img, NewElf Trie elfContents args = (out, Ret (Some img, None)) ->
     exists e', setISA e thumb = (out, Ret (e', None)) /\ isa img = isa e').
Proof.
  intros Ha He e thumb Hv.
  pose proof (setISA_cases e thumb v Hv) as Hs.
  assert (Hno : v <> 0x03 -> v <> 0x3e -> v <> 0x28 -> v <> 0xb7 ->
                setISA e thumb = ([], Ret (e, Some ErrUnsupported))).
  { intros H1 H2 H3 H4. rewrite Hs.
    destruct (Z.eqb_spec v 0x28); [lia|]. destruct (Z.eqb_spec v 0x03); [lia|].
    destruct (Z.eqb_spec v 0x3e); [lia|]. destruct (Z.eqb_spec v 0xb7); [lia|].
    reflexivity. }
  split; [|split; [|split; [|split; [|split]]]].
  - intros -> Ht. rewrite Hs, Ht. reflexivity.
  - intros -> Ht. rewrite Hs, Ht. reflexivity.
  - intros [-> | ->]; rewrite Hs; reflexivity.
  - intros ->. rewrite Hs. reflexivity.
  - intros H1 H2 H3 H4. split; [auto|].
    apply NewElf_of_fails. eapply ISAFails; [exact Ha | exact He |].
    apply Hno; assumption.
  - intros out img H. apply NewElf_inv in H.
    destruct H as [[H _] | [_ [elf [Himg Hok]]]]; [discriminate|].
    inversion Himg; subst elf. fold thumb in Hok.
    destruct Hok as [a' en' out e' segs ins Ha' He' Hi' Hl' Hs' Hne'].
    rewrite Ha in Ha'. rewrite He in He'. inversion Ha'; inversion He'; subst a' en'.
    exists e'. split; [exact Hi' | reflexivity].
Qed.

(** *** The program-header table *)

(** C9. When the three header fields are readable and the entry count
    decodes to 0, [locateExecutableSegments] reports the empty-table error,
    and so does [NewElf]; nothing is assumed about the table itself, which
    may lie outside the buffer. *)
Theorem empty_table_rejected (elfContents : ByteSlice) (args : gmap string string)
    a en out (e : Image) tableOffset entrySize :
  elfArch elfContents = Ret (a, None) ->
  elfEndianness elfContents = Ret (en, None) ->
  setISA (mkElf a en None elfContents 0 None)
    (bool_decide (is_Some (args !! "---thumb"))) = (out, Ret (e, None)) ->
  fieldValue e "program header table offset" elfHeader 0 = Ret (tableOffset, None) ->
  fieldValue e "program header table entry size" elfHeader 0 = Ret (entrySize, None) ->
  fieldValue e "program header table num entries" elfHeader 0 = Ret (0, None) ->
  locateExecutableSegments e
    = Ret ([], Some (New "invalid ELF file: empty program header table"))
  /\ NewElf Trie elfContents args
    = (out, Ret (None, Some (New "invalid ELF file: empty program header table"))).
Proof.
  intros Ha He Hi Ht Hs Hn.
  assert (Hl : locateExecutableSegments e
    = Ret ([], Some (New "invalid ELF file: empty program header table"))).
  { unfold locateExecutableSegments, orReturn. rewrite Ht. cbn [bind snd fst].
    rewrite Hs. cbn [bind snd fst]. rewrite Hn. reflexivity. }
  split; [exact Hl|].
  apply NewElf_of_fails. eapply LocateFails; eauto.
Qed.

Lemma executable_bit flags : (Z.land flags 0x1 >? 0) = Z.testbit flags 0.
Proof.
  change 0x1 with (Z.ones 1). rewrite Z.land_ones by lia.
  change (2 ^ 1) with 2. rewrite <- Z.bit0_mod.
  destruct (Z.testbit flags 0); reflexivity.
Qed.

(** Without overflow the entry offset is the plain sum. *)
Lemma entryOffsetOf_exact tbl esz i :
  0 <= tbl -> 0 <= esz -> 0 <= i -> tbl + i * esz < 2 ^ 64 ->
  entryOffsetOf tbl esz i = tbl + i * esz.
Proof.
  intros Ht He Hi Hsum. unfold entryOffsetOf.
  rewrite (wrap_small (i * esz)) by nia. apply wrap_small. nia.
Qed.

Lemma locateLoop_step_skip (e : Image) tbl esz r i segs flags :
  fieldValue e "flags" programHeaderEntry (entryOffsetOf tbl esz i) = Ret (flags, None) ->
  Z.testbit flags 0 = false ->
  locateLoop e tbl esz (S r) i segs = locateLoop e tbl esz r (i + 1) segs.
Proof.
  intros Hf Hb. cbn [locateLoop]. unfold entryOffsetOf in Hf. unfold orReturn at 1.
  rewrite Hf. cbn [bind snd fst]. rewrite executable_bit, Hb. reflexivity.
Qed.

Lemma locateLoop_step_take (e : Image) tbl esz r i segs flags off va sz :
  fieldValue e "flags" programHeaderEntry (entryOffsetOf tbl esz i) = Ret (flags, None) ->
  Z.testbit flags 0 = true ->
  fieldValue e "segment offset" programHeaderEntry (entryOffsetOf tbl esz i)
    = Ret (off, None) ->
  fieldValue e "virtual address" programHeaderEntry (entryOffsetOf tbl esz i)
    = Ret (va, None) ->
  fieldValue e "file size" programHeaderEntry (entryOffsetOf tbl esz i) = Ret (sz, None) ->
  locateLoop e tbl esz (S r) i segs
    = locateLoop e tbl esz r (i + 1) (segs ++ [mkSegment va off sz]).
Proof.
  intros Hf Hb Ho Hv Hs. cbn [locateLoop]. unfold entryOffsetOf in *. unfold orReturn.
  rewrite Hf. cbn [bind snd fst]. rewrite executable_bit, Hb.
  rewrite Ho. cbn [bind snd fst]. rewrite Hv. cbn [bind snd fst].
  rewrite Hs. reflexivity.
Qed.

(** A completed walk of [r] entries from index [i] appends, in index order,
    what each entry contributes. *)
Lemma locateLoop_complete (e : Image) tbl esz r : forall i segs out,
  locateLoop e tbl esz r i segs = Ret (out, None) ->
  exists parts : list (list segment),
    length parts = r
    /\ (forall (k : nat) part, parts !! k = Some part ->
          Contributes e (entryOffsetOf tbl esz (i + Z.of_nat k)) part)
    /\ out = segs ++ concat parts.
Proof.
  induction r as [|r IH]; intros i segs out H.
  - cbn in H. inversion H; subst. exists []. repeat split.
    + intros k part Hk. destruct k; discriminate.
    + cbn. rewrite app_nil_r. reflexivity.
  - cbn [locateLoop] in H. fold (entryOffsetOf tbl esz i) in H. unfold orReturn in H.
    destruct (fieldValue e "flags" _ _) as [[flags [err|]]|p|] eqn:Hf;
      cbn [bind snd fst] in H; try discriminate.
    rewrite executable_bit in H.
    destruct (Z.testbit flags 0) eqn:Hb.
    + destruct (fieldValue e "segment offset" _ _) as [[off [err|]]|p|] eqn:Ho;
        cbn [bind snd fst] in H; try discriminate.
      destruct (fieldValue e "virtual address" _ _) as [[va [err|]]|p|] eqn:Hv;
        cbn [bind snd fst] in H; try discriminate.
      destruct (fieldValue e "file size" _ _) as [[sz [err|]]|p|] eqn:Hs;
        cbn [bind snd fst] in H; try discriminate.
      destruct (IH _ _ _ H) as (parts & Hlen & Hc & Hout).
      exists ([mkSegment va off sz] :: parts). split; [cbn; lia|]. split.
      * intros k part Hk. destruct k as [|k].
        -- inversion Hk; subst. rewrite Z.add_0_r. eapply Executable; eauto.
        -- replace (i + Z.of_nat (S k)) with (i + 1 + Z.of_nat k) by lia.
           apply Hc. exact Hk.
      * rewrite Hout. cbn [concat]. rewrite <- app_assoc. reflexivity.
    + destruct (IH _ _ _ H) as (parts & Hlen & Hc & Hout).
      exists ([] :: parts). split; [cbn; lia|]. split.
      * intros k part Hk. destruct k as [|k].
        -- inversion Hk; subst. rewrite Z.add_0_r. eapply NotExecutable; eauto.
        -- replace (i + Z.of_nat (S k)) with (i + 1 + Z.of_nat k) by lia.
           apply Hc. exact Hk.
      * exact Hout.
Qed.

(** Conversely, the walk completes as soon as every entry contributes. *)
Lemma locateLoop_returns (e : Image) tbl esz (parts : list (list segment)) :
  forall i segs,
  (forall (k : nat) part, parts !! k = Some part ->
     Contributes e (entryOffsetOf tbl esz (i + Z.of_nat k)) part) ->
  locateLoop e tbl esz (length parts) i segs = Ret (segs ++ concat parts, None).
Proof.
  induction parts as [|part parts IH]; intros i segs Hc.
  - cbn. rewrite app_nil_r. reflexivity.
  - pose proof (Hc 0%nat part eq_refl) as H0. rewrite Z.add_0_r in H0.
    assert (Hrest : forall (k : nat) p, parts !! k = Some p ->
              Contributes e (entryOffsetOf tbl esz (i + 1 + Z.of_nat k)) p).
    { intros k p Hk. replace (i + 1 + Z.of_nat k) with (i + Z.of_nat (S k)) by lia.
      apply Hc. exact Hk. }
    cbn [length concat].
    destruct H0 as [flags Hf Hb | flags off va sz Hf Hb Ho Hv Hs].
    + rewrite (locateLoop_step_skip _ _ _ _ _ _ _ Hf Hb).
      rewrite IH by exact Hrest. reflexivity.
    + rewrite (locateLoop_step_take _ _ _ _ _ _ _ _ _ _ Hf Hb Ho Hv Hs).
      rewrite IH by exact Hrest. rewrite <- app_assoc. reflexivity.
Qed.

Lemma locate_after_header (e : Image) tbl esz n :
  fieldValue e "program header table offset" elfHeader 0 = Ret (tbl, None) ->
  fieldValue e "program header table entry size" elfHeader 0 = Ret (esz, None) ->
  fieldValue e "program header table num entries" elfHeader 0 = Ret (n, None) ->
  n <> 0 ->
  locateExecutableSegments e = locateLoop e tbl esz (Z.to_nat n) 0 [].
Proof.
  intros Ht Hs Hn Hne. unfold locateExecutableSegments, orReturn.
  rewrite Ht. cbn [bind snd fst]. rewrite Hs. cbn [bind snd fst].
  rewrite Hn. cbn [bind snd fst].
  destruct (Z.eqb_spec n 0); [contradiction|]. reflexivity.
Qed.

(** C6. With the table offset, entry size and non-zero entry count read
    from the header, [locateExecutableSegments] returns a segment list
    exactly when every entry, at [tableOffset + index * entrySize], has
    readable flags and, if bit 0 of the flags is set, readable file offset,
    virtual address and file size; the list is then the concatenation, in
    index order, of one segment per entry with bit 0 set and nothing for
    the others. *)
Theorem locate_segments_in_file_order (e : Image) tableOffset entrySize numEntries :
  fieldValue e "program header table offset" elfHeader 0 = Ret (tableOffset, None) ->
  fieldValue e "program header table entry size" elfHeader 0 = Ret (entrySize, None) ->
  fieldValue e "program header table num entries" elfHeader 0 = Ret (numEntries, None) ->
  numEntries <> 0 ->
  forall segments,
    locateExecutableSegments e = Ret (segments, None) <->
    exists parts : list (list segment),
      length parts = Z.to_nat numEntries
      /\ (forall (index : nat) part, parts !! index = Some part ->
            Contributes e (entryOffsetOf tableOffset entrySize (Z.of_nat index)) part)
      /\ segments = concat parts.
Proof.
  intros Ht Hs Hn Hne segments.
  rewrite (locate_after_header e _ _ _ Ht Hs Hn Hne). split.
  - intros H. apply locateLoop_complete in H.
    destruct H as (parts & Hlen & Hc & Hout). exists parts. repeat split; auto.
  - intros (parts & Hlen & Hc & Hout). rewrite <- Hlen, Hout.
    apply (locateLoop_returns e tableOffset entrySize parts 0 []). exact Hc.
Qed.

(** A walk of [r1 + r2] entries is a walk of [r1] entries followed by a walk
    of [r2] entries. *)
Lemma locateLoop_split (e : Image) tbl esz r1 r2 : forall i segs,
  locateLoop e tbl esz (r1 + r2) i segs =
    orReturn [] (locateLoop e tbl esz r1 i segs)
      (fun mid => locateLoop e tbl esz r2 (i + Z.of_nat r1) mid).
Proof.
  induction r1 as [|r1 IH]; intros i segs.
  - cbn [Nat.add locateLoop]. unfold orReturn. cbn. rewrite Z.add_0_r. reflexivity.
  - replace (i + Z.of_nat (S r1)) with (i + 1 + Z.of_nat r1) by lia.
    cbn [Nat.add locateLoop]. unfold orReturn in *.
    read_case. destruct (_ >? _).
    + do 3 read_case. apply IH.
    + apply IH.
Qed.

(** C10. Let entry [k] of the table have readable flags with bit 0 clear.
    Then [locateExecutableSegments] is the walk that leaves entry [k] out:
    no other field of that entry is read, whether it lies inside the buffer
    or not. Consequently [NewElf] returns the image as soon as the walk
    over the other entries succeeds and yields a non-empty instruction
    stream. *)
Theorem nonexecutable_entry_not_read (elfContents : ByteSlice)
    (args : gmap string string) a en out (e : Image)
    tableOffset entrySize numEntries k flags :
  elfArch elfContents = Ret (a, None) ->
  elfEndianness elfContents = Ret (en, None) ->
  setISA (mkElf a en None elfContents 0 None)
    (bool_decide (is_Some (args !! "---thumb"))) = (out, Ret (e, None)) ->
  fieldValue e "program header table offset" elfHeader 0 = Ret (tableOffset, None) ->
  fieldValue e "program header table entry size" elfHeader 0 = Ret (entrySize, None) ->
  fieldValue e "program header table num entries" elfHeader 0 = Ret (numEntries, None) ->
  0 <= k < numEntries ->
  fieldValue e "flags" programHeaderEntry (entryOffsetOf tableOffset entrySize k)
    = Ret (flags, None) ->
  Z.testbit flags 0 = false ->
  locateExecutableSegments e = locateSkipping e tableOffset entrySize numEntries k
  /\ (forall segments instructionStream,
        locateSkipping e tableOffset entrySize numEntries k = Ret (segments, None) ->
        InstructionStream e segments = Ret instructionStream ->
        instructionStream <> [] ->
        NewElf Trie elfContents args
          = (out, Ret (Some (withTrie e (Trie instructionStream (isa e))), None))).
Proof.
  intros Ha He Hi Ht Hs Hn Hk Hf Hb.
  assert (Heq : locateExecutableSegments e
                = locateSkipping e tableOffset entrySize numEntries k).
  { rewrite (locate_after_header e _ _ _ Ht Hs Hn) by lia.
    unfold locateSkipping.
    replace (Z.to_nat numEntries)
      with (Z.to_nat k + S (Z.to_nat (numEntries - k - 1)))%nat by lia.
    rewrite locateLoop_split. unfold orReturn.
    destruct (locateLoop e tableOffset entrySize (Z.to_nat k) 0 [])
      as [[mid [err|]]|p|]; cbn [bind snd fst]; try reflexivity.
    rewrite Z.add_0_l, Z2Nat.id by lia.
    apply (locateLoop_step_skip e _ _ _ _ _ flags); assumption. }
  split; [exact Heq|].
  intros segments instructionStream Hw Hstream Hne.
  apply NewElf_of_succeeds. eapply AllSteps; eauto. rewrite Heq. exact Hw.
Qed.

(** *** Decoded values are [uint] values *)

Lemma byteVal_range b : 0 <= byteVal b < 2 ^ 8.
Proof.
  unfold byteVal. pose proof (to_N_bounded b). change (2 ^ 8) with 256. lia.
Qed.

Lemma lor_below a b n :
  0 <= n -> 0 <= a < 2 ^ n -> 0 <= b < 2 ^ n -> 0 <= Z.lor a b < 2 ^ n.
Proof.
  intros Hn Ha Hb.
  assert (Hnn : 0 <= Z.lor a b) by (apply Z.lor_nonneg; lia).
  split; [exact Hnn|].
  destruct (Z.eq_dec (Z.lor a b) 0) as [-> | Hne]; [apply Z.pow_pos_nonneg; lia|].
  destruct (Z.eq_dec n 0) as [-> | Hn0].
  { assert (a = 0) by (change (2 ^ 0) with 1 in Ha; lia).
    assert (b = 0) by (change (2 ^ 0) with 1 in Hb; lia).
    subst a b. exfalso. apply Hne. reflexivity. }
  assert (Hlog : forall x, 0 <= x < 2 ^ n -> Z.log2 x < n).
  { intros x Hx. destruct (Z.eq_dec x 0) as [-> | Hx0]; [cbn; lia|].
    apply Z.log2_lt_pow2; lia. }
  apply Z.log2_lt_pow2; [lia|]. rewrite Z.log2_lor by lia.
  apply Z.max_lub_lt; apply Hlog; assumption.
Qed.

Lemma shift_byte_below r n : 0 <= n -> 0 <= r < 2 ^ n -> 0 <= Z.shiftl r 8 < 2 ^ (n + 8).
Proof.
  intros Hn Hr. rewrite Z.shiftl_mul_pow2, Z.pow_add_r by lia. nia.
Qed.

Lemma pow2_le_mono n m : 0 <= n <= m -> 2 ^ n <= 2 ^ m.
Proof. intros H. apply Z.pow_le_mono_r; lia. Qed.

Lemma leValue_range bs : 0 <= leValue bs < 2 ^ (8 * Z.of_nat (length bs)).
Proof.
  induction bs as [|b bs IH]; [cbn; lia|].
  cbn [leValue length]. replace (8 * Z.of_nat (S (length bs)))
    with (8 * Z.of_nat (length bs) + 8) by lia.
  apply lor_below; [lia| |apply shift_byte_below; lia].
  pose proof (byteVal_range b). pose proof (pow2_le_mono 8 (8 * Z.of_nat (length bs) + 8)).
  lia.
Qed.

Lemma beValue_range_from bs : forall acc n,
  0 <= n -> 0 <= acc < 2 ^ (8 * n) ->
  0 <= fold_left (fun acc b => Z.lor (Z.shiftl acc 8) (byteVal b)) bs acc
    < 2 ^ (8 * (n + Z.of_nat (length bs))).
Proof.
  induction bs as [|b bs IH]; intros acc n Hn Hacc.
  - cbn [fold_left length]. rewrite Z.add_0_r. exact Hacc.
  - cbn [fold_left length].
    replace (n + Z.of_nat (S (length bs))) with ((n + 1) + Z.of_nat (length bs)) by lia.
    apply IH; [lia|]. replace (8 * (n + 1)) with (8 * n + 8) by lia.
    apply lor_below; [lia|apply shift_byte_below; lia|].
    pose proof (byteVal_range b). pose proof (pow2_le_mono 8 (8 * n + 8)). lia.
Qed.

Lemma beValue_range bs : 0 <= beValue bs < 2 ^ (8 * Z.of_nat (length bs)).
Proof. apply (beValue_range_from bs 0 0); cbn; lia. Qed.

Lemma UintN_range n order b v :
  0 <= n <= 8 -> UintN n order b = Ret v -> isUint v.
Proof.
  intros Hn H. unfold UintN in H. destruct (len b <? n); [discriminate|].
  inversion H as [Hv]. clear H Hv. unfold isUint.
  set (bs := take (Z.to_nat n) (elems b)).
  assert (Hlen : Z.of_nat (length bs) <= 8).
  { unfold bs. rewrite length_take. lia. }
  pose proof (pow2_le_mono (8 * Z.of_nat (length bs)) 64 ltac:(lia)).
  destruct order; [pose proof (beValue_range bs) | pose proof (leValue_range bs)]; lia.
Qed.

Lemma fieldValue_uint (e : Image) field table base v err :
  fieldValue e field table base = Ret (v, err) -> isUint v.
Proof.
  unfold fieldValue. intros H.
  assert (H0 : isUint 0) by (unfold isUint; lia).
  destruct (_ <? _); [inversion H; subst; exact H0|].
  destruct (reslice _ _ _) as [value| |]; cbn [bind] in H; try discriminate.
  repeat match type of H with
  | (if ?c then _ else _) = _ => destruct c
  end.
  - unfold index in H. destruct (_ && _); [|discriminate]. inversion H; subst.
    pose proof (byteVal_range (nth (Z.to_nat 0) (elems value) x00)).
    unfold isUint. change (2 ^ 8) with 256 in *. change (2 ^ 64) with 18446744073709551616. lia.
  - destruct (callUint 2 _ value) as [x| |] eqn:Hc; cbn [bind] in H; try discriminate.
    inversion H; subst. unfold callUint in Hc.
    destruct (if (endianness e =? "big")%string then _ else _); [|discriminate].
    eapply (UintN_range 2); [lia|exact Hc].
  - destruct (callUint 4 _ value) as [x| |] eqn:Hc; cbn [bind] in H; try discriminate.
    inversion H; subst. unfold callUint in Hc.
    destruct (if (endianness e =? "big")%string then _ else _); [|discriminate].
    eapply (UintN_range 4); [lia|exact Hc].
  - destruct (callUint 8 _ value) as [x| |] eqn:Hc; cbn [bind] in H; try discriminate.
    inversion H; subst. unfold callUint in Hc.
    destruct (if (endianness e =? "big")%string then _ else _); [|discriminate].
    eapply (UintN_range 8); [lia|exact Hc].
  - inversion H; subst. exact H0.
Qed.

(** The segments handed over by [locateExecutableSegments] are made of
    [uint] values. *)
Lemma locateLoop_uint (e : Image) tbl esz r : forall i segs out err,
  Forall uintSegment segs ->
  locateLoop e tbl esz r i segs = Ret (out, err) ->
  Forall uintSegment out.
Proof.
  induction r as [|r IH]; intros i segs out err Hsegs H.
  - cbn in H. inversion H; subst. exact Hsegs.
  - cbn [locateLoop] in H. unfold orReturn in H.
    destruct (fieldValue e "flags" _ _) as [[flags [er|]]|p|] eqn:Hf;
      cbn [bind snd fst] in H; try discriminate.
    { inversion H. constructor. }
    destruct (_ >? _).
    + destruct (fieldValue e "segment offset" _ _) as [[off [er|]]|p|] eqn:Ho;
        cbn [bind snd fst] in H; try discriminate.
      { inversion H. constructor. }
      destruct (fieldValue e "virtual address" _ _) as [[va [er|]]|p|] eqn:Hv;
        cbn [bind snd fst] in H; try discriminate.
      { inversion H. constructor. }
      destruct (fieldValue e "file size" _ _) as [[sz [er|]]|p|] eqn:Hs;
        cbn [bind snd fst] in H; try discriminate.
      { inversion H. constructor. }
      apply IH in H; [exact H|]. apply Forall_app. split; [exact Hsegs|].
      constructor; [|constructor].
      apply fieldValue_uint in Ho, Hv, Hs.
      unfold uintSegment. cbn [VAddr Offset Size]. auto.
    + apply IH in H; assumption.
Qed.

Lemma locate_segments_uint (e : Image) segs err :
  locateExecutableSegments e = Ret (segs, err) -> Forall uintSegment segs.
Proof.
  unfold locateExecutableSegments, orReturn. intros H.
  repeat match type of H with
  | context [fieldValue ?e ?f ?t ?b] =>
      destruct (fieldValue e f t b) as [[? [?|]]|?|];
      cbn [bind snd fst] in H; try discriminate;
      try (inversion H; subst; constructor)
  end.
  destruct (_ =? _); [inversion H; constructor|].
  eapply locateLoop_uint; [|exact H]. constructor.
Qed.

(** *** The instruction stream *)

Lemma chunkCount_zero m w : 0 < w -> m <= 0 -> chunkCount m w = 0%nat.
Proof.
  intros Hw Hm. unfold chunkCount.
  assert ((m + w - 1) / w <= 0); [|lia].
  apply Z.lt_succ_r. apply Z.div_lt_upper_bound; lia.
Qed.

Lemma chunkCount_step m w : 0 < w -> 0 < m -> chunkCount m w = S (chunkCount (m - w) w).
Proof.
  intros Hw Hm. unfold chunkCount.
  replace (m + w - 1) with ((m - w + w - 1) + 1 * w) by lia.
  rewrite Z.div_add by lia.
  assert (0 <= (m - w + w - 1) / w) by (apply Z.div_pos; lia).
  lia.
Qed.

(** With a remainder, there is one chunk start more than there are whole
    chunks. *)
Lemma chunkCount_remainder m w :
  0 < w -> 0 <= m -> m mod w <> 0 -> chunkCount m w = Z.to_nat (m / w + 1).
Proof.
  intros Hw Hm Hr. unfold chunkCount. f_equal.
  pose proof (Z.mod_pos_bound m w Hw) as Hb.
  pose proof (Z.div_mod m w ltac:(lia)) as Hd.
  symmetry. apply (Z.div_unique_pos _ _ _ (m mod w - 1)); lia.
Qed.

Lemma chunkCount_exact m w :
  0 < w -> 0 <= m -> m mod w = 0 -> chunkCount m w = Z.to_nat (m / w).
Proof.
  intros Hw Hm Hr. unfold chunkCount. f_equal.
  pose proof (Z.div_mod m w ltac:(lia)) as Hd.
  symmetry. apply (Z.div_unique_pos _ _ _ (w - 1)); lia.
Qed.

Lemma chunkStarts_length n i w : length (chunkStarts n i w) = n.
Proof. revert i. induction n as [|n IH]; intros i; cbn; [|rewrite IH]; reflexivity. Qed.

Lemma chunkStarts_lookup n w : forall i (k : nat),
  (k < n)%nat -> chunkStarts n i w !! k = Some (i + Z.of_nat k * w).
Proof.
  induction n as [|n IH]; intros i k Hk; [lia|].
  destruct k as [|k]; cbn [chunkStarts].
  - cbn. f_equal. lia.
  - cbn [lookup list_lookup]. rewrite IH by lia. f_equal. lia.
Qed.

Lemma chunkStarts_ge n w : forall i x, 0 <= w -> In x (chunkStarts n i w) -> i <= x.
Proof.
  induction n as [|n IH]; intros i x Hw Hin; [destruct Hin|].
  destruct Hin as [<- | Hin]; [lia|]. apply IH in Hin; lia.
Qed.

(** The loop over one segment: every chunk start yields an instruction,
    unless the last chunk runs past the capacity of the slice. *)
Lemma chunkLoop_run fuel : forall sc w va i acc,
  0 < w -> 0 <= i -> (0 < fuel)%nat -> len sc - i < Z.of_nat fuel ->
  chunkLoop fuel sc w va i acc =
    let n := chunkCount (len sc - i) w in
    if (n =? 0)%nat || (i + Z.of_nat n * w <=? cap sc)
    then Ret (acc ++ map (instructionAt (backing sc) w (mkSegment va 0 0))
                         (chunkStarts n i w))
    else Panic SliceBoundsOutOfRange.
Proof.
  induction fuel as [|fuel IH]; intros sc w va i acc Hw Hi Hpos Hfuel; [lia|].
  cbn [chunkLoop]. cbv zeta.
  destruct (Z.ltb_spec i (len sc)) as [Hlt | Hge].
  - rewrite (chunkCount_step (len sc - i) w) by lia.
    replace (len sc - i - w) with (len sc - (i + w)) by lia.
    set (n' := chunkCount (len sc - (i + w)) w).
    cbn [Nat.eqb orb chunkStarts map].
    unfold reslice.
    destruct (Z.leb_spec 0 i); [|lia].
    destruct (Z.leb_spec i (i + w)); [|lia].
    destruct (Z.leb_spec (i + w) (cap sc)) as [Hfit | Hover]; cbn [andb bind].
    + rewrite IH by lia. fold n'. cbv zeta.
      replace (i + w + Z.of_nat n' * w) with (i + Z.of_nat (S n') * w) by lia.
      assert (Hc : ((n' =? 0)%nat || (i + Z.of_nat (S n') * w <=? cap sc))
                   = (i + Z.of_nat (S n') * w <=? cap sc)).
      { destruct n' as [|m]; [|reflexivity]. cbn [Nat.eqb orb].
        symmetry. apply Z.leb_le. lia. }
      rewrite Hc. destruct (_ <=? _); [|reflexivity].
      rewrite <- app_assoc. cbn [app]. unfold instructionAt at 2. cbn [Offset VAddr].
      replace (i + w - i) with w by lia. rewrite Z.add_0_l. reflexivity.
    + destruct (Z.leb_spec (i + Z.of_nat (S n') * w) (cap sc)); [nia|]. reflexivity.
  - rewrite chunkCount_zero by lia. cbn. rewrite app_nil_r. reflexivity.
Qed.

(** One round of the loop over the segments, for a segment whose slice
    expression is in range. *)
Lemma segmentLoop_cons c w seg rest acc :
  0 < w ->
  0 <= Offset seg -> 0 <= Size seg ->
  Offset seg + Size seg <= cap c -> Offset seg + Size seg < 2 ^ 64 ->
  segmentLoop c w (seg :: rest) acc =
    if (chunkCount (Size seg) w =? 0)%nat
       || (Offset seg + Z.of_nat (chunkCount (Size seg) w) * w <=? cap c)
    then segmentLoop c w rest (acc ++ segmentChunks c w seg)
    else Panic SliceBoundsOutOfRange.
Proof.
  intros Hw Ho Hs Hfit Hcap. cbn [segmentLoop].
  rewrite (wrap_small (Offset seg + Size seg)) by lia.
  destruct (reslice_ok c (Offset seg) (Offset seg + Size seg))
    as (sc & -> & Hlen & Hcapsc & Hback); [lia | lia |].
  cbn [bind]. rewrite chunkLoop_run by lia. cbv zeta.
  replace (len sc - 0) with (Size seg) by lia.
  set (n := chunkCount (Size seg) w).
  replace (0 + Z.of_nat n * w <=? cap sc)
    with (Offset seg + Z.of_nat n * w <=? cap c).
  2:{ rewrite Hcapsc. apply eq_true_iff_eq. rewrite !Z.leb_le. lia. }
  destruct (_ || _); [|reflexivity]. cbn [bind]. f_equal. f_equal.
  unfold segmentChunks. fold n. apply map_ext_in. intros x Hx.
  apply chunkStarts_ge in Hx; [|lia].
  unfold instructionAt. cbn [Offset VAddr]. rewrite Hback, drop_drop.
  replace (Z.to_nat (Offset seg) + Z.to_nat (0 + x))%nat
    with (Z.to_nat (Offset seg + x)) by lia.
  reflexivity.
Qed.

(** A [uint] sum that is not below its first operand has not wrapped. *)
Lemma wrap_sum_no_overflow a b :
  isUint a -> isUint b -> a <= wrap (a + b) -> a + b < 2 ^ 64.
Proof.
  unfold isUint. intros Ha Hb Hle.
  destruct (Z_lt_dec (a + b) (2 ^ 64)) as [Hlt | Hge]; [exact Hlt|].
  exfalso. unfold wrap, uintSize in Hle.
  replace (a + b) with ((a + b - 2 ^ 64) + 1 * 2 ^ 64) in Hle by lia.
  rewrite Z.mod_add, Z.mod_small in Hle by lia. lia.
Qed.

(** The slice expression of a segment made of [uint] values succeeds only
    for a segment that ends within the capacity of the buffer. *)
Lemma reslice_segment_inv c seg sc :
  uintSegment seg ->
  reslice c (Offset seg) (wrap (Offset seg + Size seg)) = Ret sc ->
  Offset seg + Size seg <= cap c /\ Offset seg + Size seg < 2 ^ 64.
Proof.
  intros (_ & Ho & Hs) H. unfold reslice in H.
  destruct (Z.leb_spec 0 (Offset seg)); [|discriminate].
  destruct (Z.leb_spec (Offset seg) (wrap (Offset seg + Size seg))); [|discriminate].
  destruct (Z.leb_spec (wrap (Offset seg + Size seg)) (cap c)); [|discriminate].
  pose proof (wrap_sum_no_overflow _ _ Ho Hs ltac:(assumption)) as Hno.
  unfold isUint in *. rewrite wrap_small in * by lia. lia.
Qed.

(** When [InstructionStream] returns, the stream is the concatenation, in
    segment order, of the chunks of each segment. *)
Lemma segmentLoop_returned c w segs : forall acc out,
  0 < w ->
  Forall uintSegment segs ->
  segmentLoop c w segs acc = Ret out ->
  out = acc ++ concat (map (segmentChunks c w) segs).
Proof.
  induction segs as [|seg segs IH]; intros acc out Hw Hin H.
  - cbn in H. inversion H. cbn. rewrite app_nil_r. reflexivity.
  - inversion Hin as [|? ? Hseg Hrest]; subst.
    assert (Hfit : Offset seg + Size seg <= cap c /\ Offset seg + Size seg < 2 ^ 64).
    { cbn [segmentLoop] in H.
      destruct (reslice c (Offset seg) (wrap (Offset seg + Size seg))) as [sc| |] eqn:Hr;
        try discriminate.
      eapply reslice_segment_inv; eauto. }
    destruct Hseg as (_ & Ho & Hs). unfold isUint in Ho, Hs.
    rewrite segmentLoop_cons in H by lia.
    destruct (_ || _); [|discriminate].
    apply IH in H; auto. rewrite H. cbn [map concat]. rewrite app_assoc. reflexivity.
Qed.

(** It returns when each segment, widened to a whole number of chunks,
    stays below the capacity of the buffer. *)
Lemma segmentLoop_returns c w segs : forall acc,
  0 < w -> cap c < 2 ^ 63 ->
  Forall (fun seg => inFile c seg
            /\ Offset seg + Z.of_nat (chunkCount (Size seg) w) * w <= cap c) segs ->
  segmentLoop c w segs acc = Ret (acc ++ concat (map (segmentChunks c w) segs)).
Proof.
  induction segs as [|seg segs IH]; intros acc Hw Hcap Hin.
  - cbn. rewrite app_nil_r. reflexivity.
  - inversion Hin as [|? ? ((Ho & Hs & Hfit) & Hpad) Hrest]; subst.
    pose proof (len_le_cap c) as Hlc.
    rewrite segmentLoop_cons by lia.
    destruct (Z.leb_spec (Offset seg + Z.of_nat (chunkCount (Size seg) w) * w) (cap c));
      [|lia].
    rewrite orb_true_r, IH by auto.
    cbn [map concat]. rewrite app_assoc. reflexivity.
Qed.

Lemma InstructionSize_pos a : 0 < InstructionSize a.
Proof. destruct a; reflexivity. Qed.

(** The fuel given to the loop over a segment is enough. *)
Lemma segmentLoop_terminates c w segs : forall acc,
  0 < w -> segmentLoop c w segs acc <> OutOfFuel.
Proof.
  induction segs as [|seg segs IH]; intros acc Hw; [discriminate|].
  cbn [segmentLoop]. unfold reslice. destruct (_ && _); [|discriminate].
  cbn [bind]. rewrite chunkLoop_run; [|lia|lia|lia|].
  - cbv zeta. destruct (_ || _); [|discriminate]. cbn [bind]. apply IH. exact Hw.
  - pose proof (len_nonneg {|
      elems := take (Z.to_nat (wrap (Offset seg + Size seg) - Offset seg))
                 (drop (Z.to_nat (Offset seg)) (backing c));
      spare := drop (Z.to_nat (wrap (Offset seg + Size seg))) (backing c) |}).
    lia.
Qed.

Lemma InstructionStream_terminates (e : Image) segs :
  InstructionStream e segs <> OutOfFuel.
Proof.
  unfold InstructionStream. destruct (isa e) as [a|]; [|discriminate].
  apply segmentLoop_terminates, InstructionSize_pos.
Qed.

Lemma chunk_index_in_range k w size :
  0 < w -> 0 <= k -> (k + 1) * w <= size -> (Z.to_nat k < chunkCount size w)%nat.
Proof.
  intros Hw Hk Hin. unfold chunkCount.
  assert (k + 1 <= (size + w - 1) / w); [|lia].
  apply Z.div_le_lower_bound; lia.
Qed.

Lemma segmentChunks_lookup c w seg (k : nat) :
  (k < chunkCount (Size seg) w)%nat ->
  segmentChunks c w seg !! k = Some (instructionAt (backing c) w seg (Z.of_nat k * w)).
Proof.
  intros Hk. unfold segmentChunks.
  rewrite list_lookup_fmap, (chunkStarts_lookup _ _ _ _ Hk). reflexivity.
Qed.

Lemma take_drop_elems c p w :
  0 <= p -> 0 <= w -> p + w <= len c ->
  take (Z.to_nat w) (drop (Z.to_nat p) (backing c))
    = take (Z.to_nat w) (drop (Z.to_nat p) (elems c)).
Proof.
  intros Hp Hw Hin. unfold backing, len in *.
  rewrite drop_app_le by lia. apply take_app_le. rewrite length_drop. lia.
Qed.

(** C4. When [InstructionStream] returns, the stream is made of the chunks
    of each segment in segment order, and the instruction of the chunk of
    index [k] of a segment, when the chunk lies inside the segment and
    inside the file, has as opcode the hex encoding of the [w] bytes of the
    file at [Offset + k * w], in file order, and as address [VAddr + k * w]
    (a [uint] sum, which is the plain sum unless it passes [2^64]). The
    byte order of the image plays no part in it. *)
Theorem instruction_of_chunk (e : Image) a segs ins :
  isa e = Some a ->
  let w := InstructionSize a in
  Forall uintSegment segs ->
  InstructionStream e segs = Ret ins ->
  ins = concat (map (segmentChunks (contents e) w) segs)
  /\ (forall seg k, In seg segs ->
        0 <= k -> (k + 1) * w <= Size seg ->
        Offset seg + (k + 1) * w <= len (contents e) ->
        segmentChunks (contents e) w seg !! Z.to_nat k
          = Some {| Op := EncodeToString
                            (take (Z.to_nat w)
                               (drop (Z.to_nat (Offset seg + k * w)) (elems (contents e))));
                    Vaddr := wrap (VAddr seg + k * w) |}
        /\ (VAddr seg + k * w < 2 ^ 64 ->
            wrap (VAddr seg + k * w) = VAddr seg + k * w))
  /\ (forall order, InstructionStream
        (mkElf (arch e) order (isa e) (contents e) (programHeaderTableOffset e)
               (reverseInstructionTrie e)) segs = Ret ins).
Proof.
  intros Hisa w Hin Hret.
  pose proof (InstructionSize_pos a) as Hw. fold w in Hw.
  split; [|split].
  - unfold InstructionStream in Hret. rewrite Hisa in Hret. fold w in Hret.
    apply segmentLoop_returned in Hret; auto.
  - intros seg k Hseg Hk Hchunk Hfile.
    rewrite List.Forall_forall in Hin. destruct (Hin seg Hseg) as (Hv & Ho & Hs).
    unfold isUint in *. split.
    + rewrite segmentChunks_lookup by (apply chunk_index_in_range; lia).
      rewrite Z2Nat.id by lia. unfold instructionAt.
      rewrite take_drop_elems by nia. reflexivity.
    + intros Hsum. apply wrap_small. nia.
  - intros order. exact Hret.
Qed.

(** C1 (the code departs from it). For a segment inside the file whose size
    is not a multiple of the instruction width, the loop runs once more
    after the last whole chunk: [InstructionStream] returns
    [Size / w + 1] instructions, one more than the whole chunks, when the
    [w] bytes at the start of the remainder exist in the buffer, and panics
    when they do not. *)
Theorem trailing_remainder_not_dropped (e : Image) a seg :
  isa e = Some a ->
  let w := InstructionSize a in
  cap (contents e) < 2 ^ 63 ->
  inFile (contents e) seg ->
  Size seg mod w <> 0 ->
  (Offset seg + (Size seg / w + 1) * w <= cap (contents e) ->
     exists ins, InstructionStream e [seg] = Ret ins
       /\ length ins = Z.to_nat (Size seg / w + 1))
  /\ (cap (contents e) < Offset seg + (Size seg / w + 1) * w ->
     InstructionStream e [seg] = Panic SliceBoundsOutOfRange).
Proof.
  intros Hisa w Hcap (Ho & Hs & Hfit) Hrem.
  pose proof (InstructionSize_pos a) as Hw. fold w in Hw.
  pose proof (len_le_cap (contents e)) as Hlc.
  pose proof (Z.div_pos (Size seg) w Hs Hw) as Hq.
  unfold InstructionStream. rewrite Hisa. fold w.
  rewrite segmentLoop_cons by lia.
  rewrite (chunkCount_remainder (Size seg) w) by lia.
  rewrite Z2Nat.id by lia.
  replace (Z.to_nat (Size seg / w + 1) =? 0)%nat with false
    by (symmetry; apply Nat.eqb_neq; lia).
  cbn [orb]. split; intros H.
  - destruct (Z.leb_spec (Offset seg + (Size seg / w + 1) * w) (cap (contents e)));
      [|lia].
    cbn [segmentLoop app]. eexists. split; [reflexivity|].
    unfold segmentChunks. rewrite length_map, chunkStarts_length.
    apply chunkCount_remainder; lia.
  - destruct (Z.leb_spec (Offset seg + (Size seg / w + 1) * w) (cap (contents e)));
      [lia|].
    reflexivity.
Qed.

(** C2 (the code departs from it). [locateExecutableSegments] hands over a
    segment that ends [0xf0] bytes after the end of the buffer, without any
    error, and the slice expression of [InstructionStream] panics on it. *)
Theorem oversized_segment_accepted :
  let elfContents := mkSlice oversizedSegment [] in
  let e : Image := mkElf 64 "little" (Some X86) elfContents 0 None in
  locateExecutableSegments e = Ret ([mkSegment 0x1000 0x78 0x100], None)
  /\ len elfContents = 0x88
  /\ InstructionStream e [mkSegment 0x1000 0x78 0x100] = Panic SliceBoundsOutOfRange
  /\ NewElf Trie elfContents ∅ = ([], Panic SliceBoundsOutOfRange).
Proof. vm_compute. repeat split. Qed.

(** *** No loop runs out of fuel *)

Lemma fieldValue_terminates (e : Image) field table base :
  fieldValue e field table base <> OutOfFuel.
Proof.
  unfold fieldValue, reslice, index, callUint, UintN, bind.
  repeat case_match; discriminate.
Qed.

Lemma locateLoop_terminates (e : Image) tbl esz r : forall i segs,
  locateLoop e tbl esz r i segs <> OutOfFuel.
Proof.
  induction r as [|r IH]; intros i segs; [discriminate|].
  cbn [locateLoop]. unfold orReturn.
  repeat match goal with
  | |- context [fieldValue ?e ?f ?t ?b] =>
      let H := fresh "H" in
      destruct (fieldValue e f t b) as [[? [?|]]|?|] eqn:H;
      [ | | | apply fieldValue_terminates in H; destruct H ];
      cbn [bind snd fst]; try discriminate
  | |- context [if ?c then _ else _] => destruct c
  end; first [discriminate | apply IH].
Qed.

Lemma locate_terminates (e : Image) : locateExecutableSegments e <> OutOfFuel.
Proof.
  unfold locateExecutableSegments, orReturn.
  repeat match goal with
  | |- context [fieldValue ?e ?f ?t ?b] =>
      let H := fresh "H" in
      destruct (fieldValue e f t b) as [[? [?|]]|?|] eqn:H;
      [ | | | apply fieldValue_terminates in H; destruct H ];
      cbn [bind snd fst]; try discriminate
  end.
  destruct (_ =? _); [discriminate|]. apply locateLoop_terminates.
Qed.

(** [NewElf] returns or panics: the fuel of the model is never the reason
    for its outcome. *)
Lemma NewElf_terminates c (args : gmap string string) :
  snd (NewElf Trie c args) <> OutOfFuel.
Proof.
  unfold NewElf.
  destruct (elfArch c) as [[a [ea|]]|p|] eqn:Ha; cbn [snd]; try discriminate.
  2:{ unfold elfArch, index, bind in Ha. repeat case_match; discriminate. }
  destruct (elfEndianness c) as [[en [ee|]]|p|] eqn:He; cbn [snd]; try discriminate.
  2:{ unfold elfEndianness, index, bind in He. repeat case_match; discriminate. }
  destruct (setISA _ _) as [o [[e [ei|]]|p|]] eqn:Hi; cbn [snd]; try discriminate.
  2:{ unfold setISA in Hi.
      destruct (fieldValue _ "isa" elfHeader 0) as [[v [ev|]]|p|] eqn:Hv;
        [ | | | apply fieldValue_terminates in Hv; destruct Hv ];
        repeat case_match; inversion Hi. }
  unfold orReturn.
  destruct (locateExecutableSegments e) as [[segs [el|]]|p|] eqn:Hl;
    cbn [bind snd fst]; try discriminate.
  2:{ apply locate_terminates in Hl. destruct Hl. }
  destruct (InstructionStream e segs) as [ins|p|] eqn:Hs; cbn [bind]; try discriminate.
  2:{ apply InstructionStream_terminates in Hs. destruct Hs. }
  destruct (_ =? _); discriminate.
Qed.

(** A segment that ends beyond the capacity of the buffer makes the slice
    expression panic, whatever the other segments are. *)
Lemma segmentLoop_beyond_capacity c w seg rest acc :
  cap c < wrap (Offset seg + Size seg) ->
  segmentLoop c w (seg :: rest) acc = Panic SliceBoundsOutOfRange.
Proof.
  intros H. cbn [segmentLoop]. unfold reslice.
  destruct (Z.leb_spec (wrap (Offset seg + Size seg)) (cap c)); [lia|].
  rewrite andb_false_r. reflexivity.
Qed.

(** *** The loader on the concrete images *)

(** The scenario of the specification: sixteen one-byte instructions, the
    fifth one at [0x1004]. *)
Example scenario_stream :
  exists elf, NewElf (TrieNode := list Instruction) (fun s _ => Some s)
                (mkSlice scenarioImage []) ∅ = ([], Ret (Some elf, None))
    /\ isa elf = Some X86
    /\ exists s, reverseInstructionTrie elf = Some s
         /\ length s = 16%nat
         /\ s !! 4%nat = Some (mkInstruction "a4" 0x1004).
Proof.
  eexists. split; [vm_compute; reflexivity|]. split; [reflexivity|].
  eexists. split; [reflexivity|]. split; reflexivity.
Qed.

(** The ARM image whose segment has 5 bytes: the second instruction is made
    of the last byte of the segment and of the three bytes that follow
    it. *)
Example armRemainder_stream :
  InstructionStream (TrieNode := TrieNode)
      (mkElf 32 "little" (Some ARM) (mkSlice armRemainder []) 0 None)
      [mkSegment 0x8000 0x54 5]
    = Ret [mkInstruction "0110a0e1" 0x8000; mkInstruction "1eff2fe1" 0x8004].
Proof. vm_compute. reflexivity. Qed.

(** *** Decoding *)

Lemma land_low_shifted a r : 0 <= a < 2 ^ 8 -> Z.land a (Z.shiftl r 8) = 0.
Proof.
  intros Ha. apply Z.bits_inj'. intros n Hn.
  rewrite Z.land_spec, Z.bits_0.
  destruct (Z_lt_dec n 8) as [Hlow | Hhigh].
  - rewrite Z.shiftl_spec_low by lia. apply andb_false_r.
  - assert (Hbit : Z.testbit a n = false).
    { destruct (Z.eq_dec a 0) as [-> | Hne]; [apply Z.bits_0|].
      apply Z.bits_above_log2; [lia|].
      assert (Z.log2 a < 8) by (apply Z.log2_lt_pow2; lia). lia. }
    rewrite Hbit. reflexivity.
Qed.

Lemma lor_byte_shifted a r : 0 <= a < 2 ^ 8 -> Z.lor a (Z.shiftl r 8) = a + 256 * r.
Proof.
  intros Ha. rewrite <- Z.add_nocarry_lor by (apply land_low_shifted; exact Ha).
  rewrite Z.shiftl_mul_pow2 by lia. change (2 ^ 8) with 256. lia.
Qed.

Lemma leValue_base256 bs : leValue bs = base256 bs.
Proof.
  induction bs as [|b bs IH]; [reflexivity|].
  cbn [leValue base256 fold_right]. rewrite lor_byte_shifted by apply byteVal_range.
  rewrite IH. reflexivity.
Qed.

Lemma base256_app bs cs :
  base256 (bs ++ cs) = base256 bs + 256 ^ Z.of_nat (length bs) * base256 cs.
Proof.
  induction bs as [|b bs IH].
  { cbn [app length]. change (Z.of_nat 0) with 0. rewrite Z.pow_0_r.
    change (base256 []) with 0. lia. }
  cbn [app length]. change (base256 (b :: bs ++ cs))
    with (byteVal b + 256 * base256 (bs ++ cs)).
  change (base256 (b :: bs)) with (byteVal b + 256 * base256 bs).
  rewrite IH, Nat2Z.inj_succ, Z.pow_succ_r by lia. lia.
Qed.

Lemma beValue_from bs : forall acc,
  fold_left (fun acc b => Z.lor (Z.shiftl acc 8) (byteVal b)) bs acc
    = base256 (rev bs) + 256 ^ Z.of_nat (length bs) * acc.
Proof.
  induction bs as [|b bs IH]; intros acc.
  { cbn [fold_left rev length]. change (Z.of_nat 0) with 0. rewrite Z.pow_0_r.
    change (base256 []) with 0. lia. }
  cbn [fold_left rev length]. rewrite IH.
  rewrite Z.lor_comm, lor_byte_shifted by apply byteVal_range.
  rewrite base256_app, length_rev, Nat2Z.inj_succ, Z.pow_succ_r by lia.
  cbn [base256 fold_right]. lia.
Qed.

Lemma beValue_base256 bs : beValue bs = base256 (rev bs).
Proof. unfold beValue. rewrite beValue_from. lia. Qed.

Lemma reslice_elems s lo hi sub :
  reslice s lo hi = Ret sub ->
  elems sub = take (Z.to_nat (hi - lo)) (drop (Z.to_nat lo) (backing s)).
Proof.
  unfold reslice. destruct (_ && _); [|discriminate].
  intros H. inversion H. reflexivity.
Qed.

(** The read of a field whose end is below [2^63], with the wrap-around
    and the conversion to [int] resolved. *)
Lemma fieldValue_shape (e : Image) field table base off size :
  (arch e = 32 /\ off = offset32 (lookupField table field)
               /\ size = size32 (lookupField table field))
  \/ (arch e = 64 /\ off = offset64 (lookupField table field)
                  /\ size = size64 (lookupField table field)) ->
  0 <= off + base -> 0 <= size -> off + base + size < 2 ^ 63 ->
  fieldValue e field table base =
    if len (contents e) <? off + base + size then
      Ret (0, Some (New "invalid ELF file: value offset outside file bounds"))
    else
      let* value := reslice (contents e) (off + base) (off + base + size) in
      if size =? 1 then let* v := index value 0 in Ret (v, None)
      else
        let byteOrder :=
          if String.eqb (endianness e) "big" then Some BigEndian
          else if String.eqb (endianness e) "little" then Some LittleEndian
          else None in
        if size =? 2 then let* v := callUint 2 byteOrder value in Ret (v, None)
        else if size =? 4 then let* v := callUint 4 byteOrder value in Ret (v, None)
        else if size =? 8 then let* v := callUint 8 byteOrder value in Ret (v, None)
        else Ret (0, None).
Proof.
  intros Harch Hlo Hsize Hhi. unfold fieldValue.
  destruct Harch as [(Ha & -> & ->) | (Ha & -> & ->)]; rewrite Ha; cbn [Z.eqb Pos.eqb];
    rewrite (wrap_small (_ + base)) by lia;
    rewrite (wrap_small (_ + base + _)) by lia;
    rewrite toInt_small by lia; reflexivity.
Qed.

(** A field that lies inside the buffer is decoded as the base-256 numeral
    made of its bytes: least significant byte first in a little-endian
    image, most significant byte first in a big-endian one. *)
Theorem fieldValue_decodes (e : Image) field table base off size :
  (arch e = 32 /\ off = offset32 (lookupField table field)
               /\ size = size32 (lookupField table field))
  \/ (arch e = 64 /\ off = offset64 (lookupField table field)
                  /\ size = size64 (lookupField table field)) ->
  endianness e = "big" \/ endianness e = "little" ->
  size = 1 \/ size = 2 \/ size = 4 \/ size = 8 ->
  0 <= off + base ->
  off + base + size <= len (contents e) ->
  len (contents e) < 2 ^ 63 ->
  fieldValue e field table base =
    Ret (if String.eqb (endianness e) "big"
         then base256 (rev (fieldBytes (contents e) (off + base) size))
         else base256 (fieldBytes (contents e) (off + base) size),
         None).
Proof.
  intros Harch Hend Hsize Hlo Hin Hlen.
  pose proof (len_le_cap (contents e)) as Hlc.
  rewrite (fieldValue_shape e field table base off size) by (auto; lia).
  destruct (Z.ltb_spec (len (contents e)) (off + base + size)); [lia|].
  destruct (reslice_ok (contents e) (off + base) (off + base + size))
    as (value & Hr & Hvlen & _ & _); [lia | lia |].
  pose proof (reslice_elems _ _ _ _ Hr) as Helems.
  replace (off + base + size - (off + base)) with size in * by lia.
  rewrite take_drop_elems in Helems by lia. fold (fieldBytes (contents e) (off + base) size) in Helems.
  rewrite Hr. cbn [bind]. cbv zeta. rewrite <- Helems.
  assert (Hvl : length (elems value) = Z.to_nat size) by (unfold len in Hvlen; lia).
  assert (Horder : exists order,
      (if String.eqb (endianness e) "big" then Some BigEndian
       else if String.eqb (endianness e) "little" then Some LittleEndian
       else None) = Some order
      /\ (match order with
          | LittleEndian => leValue (elems value)
          | BigEndian => beValue (elems value)
          end)
         = (if String.eqb (endianness e) "big" then base256 (rev (elems value))
            else base256 (elems value))).
  { destruct Hend as [-> | ->]; eexists; (split; [reflexivity|]); cbn [String.eqb];
      [apply beValue_base256 | apply leValue_base256]. }
  destruct Horder as (order & -> & Hval).
  unfold callUint, UintN, index. rewrite Hvlen.
  destruct Hsize as [-> | [-> | [-> | ->]]]; cbn [Z.eqb Pos.eqb Z.ltb Z.leb Z.compare Pos.compare Pos.compare_cont andb bind];
    rewrite ?(take_ge (elems value)) by lia; rewrite ?Hval; try reflexivity.
  clear Hval Helems Hvlen. change (Z.to_nat 1) with 1%nat in Hvl.
  destruct (elems value) as [|b [|c l]]; cbn in Hvl; try discriminate.
  change (Z.to_nat 0) with 0%nat. cbn [nth rev app base256 fold_right].
  destruct (String.eqb (endianness e) "big"); do 2 f_equal; lia.
Qed.

(** *** Widths and errors of field reads *)

Lemma UintN_width n order b v :
  0 <= n -> UintN n order b = Ret v -> 0 <= v < 2 ^ (8 * n).
Proof.
  intros Hn H. unfold UintN in H. destruct (len b <? n); [discriminate|].
  inversion H as [Hv]. clear H Hv.
  set (bs := take (Z.to_nat n) (elems b)).
  assert (Hlen : Z.of_nat (length bs) <= n).
  { unfold bs. rewrite length_take. lia. }
  pose proof (pow2_le_mono (8 * Z.of_nat (length bs)) (8 * n) ltac:(lia)).
  destruct order; [pose proof (beValue_range bs) | pose proof (leValue_range bs)]; lia.
Qed.

(** A field of [n] bytes reads as a value below [2^(8n)]. *)
Lemma fieldValue_below (e : Image) field table base v err n :
  (arch e = 32 /\ size32 (lookupField table field) = n)
  \/ (arch e = 64 /\ size64 (lookupField table field) = n) ->
  0 <= n ->
  fieldValue e field table base = Ret (v, err) ->
  0 <= v < 2 ^ (8 * n).
Proof.
  intros Harch Hn H.
  assert (H0 : 0 <= 0 < 2 ^ (8 * n)) by (split; [lia|apply Z.pow_pos_nonneg; lia]).
  unfold fieldValue in H.
  destruct Harch as [(Ha & Hs) | (Ha & Hs)]; rewrite Ha in H; cbn [Z.eqb Pos.eqb] in H;
    rewrite Hs in H.
  all: destruct (_ <? _); [inversion H; subst; exact H0|].
  all: destruct (reslice _ _ _) as [value| |]; cbn [bind] in H; try discriminate.
  all: destruct (Z.eqb_spec n 1) as [-> | _].
  all: try (unfold index in H; destruct (_ && _); [|discriminate]; inversion H; subst;
            apply byteVal_range).
  all: destruct (Z.eqb_spec n 2) as [-> | _];
    [ destruct (callUint 2 _ value) as [x| |] eqn:Hc; cbn [bind] in H; try discriminate;
      inversion H; subst; unfold callUint in Hc;
      destruct (if (endianness e =? "big")%string then _ else _); [|discriminate];
      apply (UintN_width 2 _ _ _ ltac:(lia) Hc) |].
  all: destruct (Z.eqb_spec n 4) as [-> | _];
    [ destruct (callUint 4 _ value) as [x| |] eqn:Hc; cbn [bind] in H; try discriminate;
      inversion H; subst; unfold callUint in Hc;
      destruct (if (endianness e =? "big")%string then _ else _); [|discriminate];
      apply (UintN_width 4 _ _ _ ltac:(lia) Hc) |].
  all: destruct (Z.eqb_spec n 8) as [-> | _];
    [ destruct (callUint 8 _ value) as [x| |] eqn:Hc; cbn [bind] in H; try discriminate;
      inversion H; subst; unfold callUint in Hc;
      destruct (if (endianness e =? "big")%string then _ else _); [|discriminate];
      apply (UintN_width 8 _ _ _ ltac:(lia) Hc) |].
  all: inversion H; subst; exact H0.
Qed.

(** The only error of a field read is the out-of-bounds error, and it
    comes with the value 0. *)
Lemma fieldValue_error (e : Image) field table base v err :
  fieldValue e field table base = Ret (v, Some err) ->
  v = 0 /\ err = New "invalid ELF file: value offset outside file bounds".
Proof.
  unfold fieldValue, bind. intros H.
  repeat case_match; inversion H; subst; auto.
Qed.

(** *** Byte-order detection *)

(** [elfEndianness] answers "little" and "big" for the bytes 1 and 2 at
    offset 5 and reports an error for any other byte and for a buffer of
    fewer than five bytes; on a buffer of exactly five bytes the read
    panics. *)
Theorem elfEndianness_cases (elfContents : ByteSlice) :
  (len elfContents < 5 ->
     elfEndianness elfContents =
       Ret (EmptyString,
            Some (New "invalid ELF file: file size less than offset to endianness field")))
  /\ (len elfContents = 5 -> elfEndianness elfContents = Panic IndexOutOfRange)
  /\ (5 < len elfContents ->
      exists b, index elfContents 5 = Ret b /\
        elfEndianness elfContents =
          if b =? 1 then Ret ("little", None)
          else if b =? 2 then Ret ("big", None)
          else Ret (EmptyString, Some (New endiannessMessage))).
Proof.
  unfold elfEndianness. split; [|split].
  - intros H. destruct (Z.ltb_spec (len elfContents) 5); [reflexivity|lia].
  - intros H. unfold index. rewrite H. reflexivity.
  - intros H. destruct (Z.ltb_spec (len elfContents) 5); [lia|].
    unfold index. destruct (Z.ltb_spec 5 (len elfContents)); [|lia].
    cbn [Z.leb Z.compare andb bind]. eexists. split; reflexivity.
Qed.

(** *** Errors *)

Lemma locateLoop_error (e : Image) tbl esz r : forall i segs out err,
  locateLoop e tbl esz r i segs = Ret (out, Some err) ->
  out = [] /\ err = New "invalid ELF file: value offset outside file bounds".
Proof.
  induction r as [|r IH]; intros i segs out err H; [discriminate|].
  cbn [locateLoop] in H. unfold orReturn in H.
  repeat match type of H with
  | context [fieldValue ?e ?f ?t ?b] =>
      let Hf := fresh "Hf" in
      destruct (fieldValue e f t b) as [[? [?|]]|?|] eqn:Hf;
      cbn [bind snd fst] in H; try discriminate;
      [ apply fieldValue_error in Hf; destruct Hf as [_ ->];
        inversion H; subst; split; reflexivity | ]
  | (if ?c then _ else _) = _ => destruct c
  end; eapply IH; exact H.
Qed.

Lemma locate_error_inv (e : Image) segments err :
  locateExecutableSegments e = Ret (segments, Some err) ->
  segments = []
  /\ (err = New "invalid ELF file: value offset outside file bounds"
      \/ err = New "invalid ELF file: empty program header table").
Proof.
  unfold locateExecutableSegments, orReturn. intros H.
  repeat match type of H with
  | context [fieldValue ?e ?f ?t ?b] =>
      let Hf := fresh "Hf" in
      destruct (fieldValue e f t b) as [[? [?|]]|?|] eqn:Hf;
      cbn [bind snd fst] in H; try discriminate;
      [ apply fieldValue_error in Hf; destruct Hf as [_ ->];
        inversion H; subst; split; [reflexivity | left; reflexivity] | ]
  end.
  destruct (_ =? _).
  - inversion H; subst. split; [reflexivity | right; reflexivity].
  - apply locateLoop_error in H. destruct H as [-> ->]. split; [reflexivity | left; reflexivity].
Qed.

(** An error of [locateExecutableSegments] comes with a nil segment list,
    never with the segments found so far, and it is the out-of-bounds error
    of a field read or the empty-table error. *)
Theorem locate_error_without_segments (e : Image) segments err :
  locateExecutableSegments e = Ret (segments, Some err) ->
  segments = []
  /\ (err = New "invalid ELF file: value offset outside file bounds"
      \/ err = New "invalid ELF file: empty program header table").
Proof.
  intros H. unfold locateExecutableSegments, orReturn in H.
  destruct (fieldValue e "program header table offset" elfHeader 0)
    as [[tbl [er|]]|p|] eqn:Ht; cbn [bind snd fst] in H; try discriminate.
  { apply fieldValue_error in Ht. destruct Ht as [_ ->]. inversion H; subst. auto. }
  destruct (fieldValue e "program header table entry size" elfHeader 0)
    as [[esz [er|]]|p|] eqn:Hs; cbn [bind snd fst] in H; try discriminate.
  { apply fieldValue_error in Hs. destruct Hs as [_ ->]. inversion H; subst. auto. }
  destruct (fieldValue e "program header table num entries" elfHeader 0)
    as [[n [er|]]|p|] eqn:Hn; cbn [bind snd fst] in H; try discriminate.
  { apply fieldValue_error in Hn. destruct Hn as [_ ->]. inversion H; subst. auto. }
  destruct (n =? 0).
  - inversion H; subst. auto.
  - apply locateLoop_error in H. destruct H as [-> ->]. auto.
Qed.

Lemma elfArch_error c x err :
  elfArch c = Ret (x, Some err) ->
  err = New "invalid ELF file: file size less than offset to arch field"
  \/ err = New "invalid ELF file: arch field not 32 or 64".
Proof.
  unfold elfArch, index, bind. intros H.
  repeat case_match; inversion H; subst; auto.
Qed.

Lemma elfArch_value c a : elfArch c = Ret (a, None) -> a = 32 \/ a = 64.
Proof.
  unfold elfArch, index, bind. intros H.
  repeat case_match; inversion H; subst; auto.
Qed.

Lemma elfEndianness_error c x err :
  elfEndianness c = Ret (x, Some err) ->
  err = New "invalid ELF file: file size less than offset to endianness field"
  \/ err = New endiannessMessage.
Proof.
  unfold elfEndianness, index, bind. intros H.
  repeat case_match; inversion H; subst; auto.
Qed.

Lemma elfEndianness_value c en :
  elfEndianness c = Ret (en, None) -> en = "little" \/ en = "big".
Proof.
  unfold elfEndianness, index, bind. intros H.
  repeat case_match; inversion H; subst; auto.
Qed.

Lemma setISA_error (e : Image) thumb out x err :
  setISA e thumb = (out, Ret (x, Some err)) ->
  err = New "invalid ELF file: value offset outside file bounds"
  \/ err = ErrUnsupported.
Proof.
  unfold setISA. intros H.
  destruct (fieldValue e "isa" elfHeader 0) as [[v [ev|]]|p|] eqn:Hv.
  - apply fieldValue_error in Hv. destruct Hv as [_ ->]. inversion H; subst. auto.
  - repeat case_match; inversion H; subst; auto.
  - inversion H.
  - inversion H.
Qed.

Lemma setISA_success (e : Image) thumb out e' :
  setISA e thumb = (out, Ret (e', None)) -> exists a, e' = withISA e a.
Proof.
  unfold setISA. intros H.
  destruct (fieldValue e "isa" elfHeader 0) as [[v [ev|]]|p|]; try (inversion H; fail).
  repeat case_match; inversion H; subst; eexists; reflexivity.
Qed.

(** Every error [NewElf] returns is one of eight values: the two of
    word-size detection, the two of byte-order detection, the out-of-bounds
    error of a field read, the empty-table error, [ErrUnsupported], or the
    error of an empty instruction stream. *)
Theorem NewElf_error_values (elfContents : ByteSlice) (args : gmap string string)
    out img err :
  NewElf Trie elfContents args = (out, Ret (img, Some err)) ->
  In err
    [ New "invalid ELF file: file size less than offset to arch field";
      New "invalid ELF file: arch field not 32 or 64";
      New "invalid ELF file: file size less than offset to endianness field";
      New endiannessMessage;
      New "invalid ELF file: value offset outside file bounds";
      New "invalid ELF file: empty program header table";
      ErrUnsupported;
      New "no executable segments found" ].
Proof.
  intros H. apply NewElf_inv in H.
  destruct H as [(_ & er & Heq & Hf) | (Heq & _)]; [|discriminate].
  inversion Heq; subst er. clear Heq. cbn [In].
  destruct Hf as [x err Ha | a x err Ha He | a en out x err Ha He Hi
                | a en out e x err Ha He Hi Hl | a en out e segs Ha He Hi Hl Hs].
  - apply elfArch_error in Ha. destruct Ha as [-> | ->]; auto 12.
  - apply elfEndianness_error in He. destruct He as [-> | ->]; auto 12.
  - apply setISA_error in Hi. destruct Hi as [-> | ->]; auto 12.
  - apply locate_error_inv in Hl. destruct Hl as [_ [-> | ->]]; auto 12.
  - auto 12.
Qed.

(** *** The image that is returned *)

Lemma fieldValue_withTrie (e : Image) t field table base :
  fieldValue (withTrie e t) field table base = fieldValue e field table base.
Proof. reflexivity. Qed.

Lemma locateLoop_withTrie (e : Image) t tbl esz r : forall i segs,
  locateLoop (withTrie e t) tbl esz r i segs = locateLoop e tbl esz r i segs.
Proof.
  induction r as [|r IH]; intros i segs; [reflexivity|].
  cbn [locateLoop]. rewrite !fieldValue_withTrie. unfold orReturn.
  read_case. destruct (_ >? _).
  - do 3 read_case. apply IH.
  - apply IH.
Qed.

Lemma locate_withTrie (e : Image) t :
  locateExecutableSegments (withTrie e t) = locateExecutableSegments e.
Proof.
  unfold locateExecutableSegments. rewrite !fieldValue_withTrie. unfold orReturn.
  do 3 read_case. destruct (_ =? _); [reflexivity|]. apply locateLoop_withTrie.
Qed.

(** The image [NewElf] returns holds the buffer it was given, a word size of
    32 or 64, a byte order that is "little" or "big", an ISA, a cached table
    offset that is still 0, and the trie built from the non-empty
    instruction stream of the segments found in that very image. *)
Theorem NewElf_image_invariant (elfContents : ByteSlice) (args : gmap string string)
    out img :
  NewElf Trie elfContents args = (out, Ret (Some img, None)) ->
  contents img = elfContents
  /\ (arch img = 32 \/ arch img = 64)
  /\ (endianness img = "little" \/ endianness img = "big")
  /\ programHeaderTableOffset img = 0
  /\ exists a segments instructionStream,
       isa img = Some a
       /\ locateExecutableSegments img = Ret (segments, None)
       /\ InstructionStream img segments = Ret instructionStream
       /\ instructionStream <> []
       /\ reverseInstructionTrie img = Trie instructionStream (Some a).
Proof.
  intros H. apply NewElf_inv in H.
  destruct H as [(Hnone & _) | (_ & elf & Heq & Hok)]; [discriminate|].
  inversion Heq; subst elf. clear Heq.
  destruct Hok as [a en out e segs ins Ha He Hi Hl Hs Hne].
  apply setISA_success in Hi. destruct Hi as [x ->].
  apply elfArch_value in Ha. apply elfEndianness_value in He.
  cbn [withTrie withISA contents arch endianness programHeaderTableOffset isa
       reverseInstructionTrie].
  repeat (split; [auto; fail|]).
  exists x, segs, ins.
  split; [reflexivity|]. split; [rewrite locate_withTrie; exact Hl|].
  split; [exact Hs|]. split; [exact Hne | reflexivity].
Qed.

(** *** The mode hint on images that are not ARM images *)

Lemma setISA_hint_ignored (e : Image) t1 t2 :
  fieldValue e "isa" elfHeader 0 <> Ret (0x28, None) ->
  snd (setISA e t1) = snd (setISA e t2).
Proof.
  intros Hne. unfold setISA.
  destruct (fieldValue e "isa" elfHeader 0) as [[v [ev|]]|p|]; try reflexivity.
  rewrite supportedISAs_lookup.
  destruct (Z.eqb_spec v 0x28) as [-> | Hv]; [congruence|].
  repeat match goal with
  | |- context [?a =? ?b] => destruct (Z.eqb_spec a b)
  end; try lia; destruct t1, t2; reflexivity.
Qed.

Lemma reslice_length s lo hi sub :
  reslice s lo hi = Ret sub -> length (elems sub) = Z.to_nat (hi - lo).
Proof.
  intros H. pose proof H as Hr. unfold reslice in Hr.
  destruct (Z.leb_spec 0 lo); [|discriminate].
  destruct (Z.leb_spec lo hi); [|discriminate].
  destruct (Z.leb_spec hi (cap s)); [|discriminate].
  destruct (reslice_ok s lo hi) as (sub' & Hsub & Hlen & _); [lia|lia|].
  rewrite H in Hsub. inversion Hsub; subst sub'. unfold len in Hlen. lia.
Qed.

(** A byte of a slice of the buffer is the byte of the buffer at the same
    place. *)
Lemma index_reslice s lo hi sub i :
  reslice s lo hi = Ret sub ->
  0 <= lo -> 0 <= i -> lo + i < hi -> hi <= len s ->
  index sub i = index s (lo + i).
Proof.
  intros Hr Hlo Hi Hlt Hhi.
  pose proof (reslice_elems _ _ _ _ Hr) as Helems.
  pose proof (reslice_length _ _ _ _ Hr) as Hlen.
  unfold index, len. rewrite Hlen.
  destruct (Z.leb_spec 0 i); [|lia]. destruct (Z.leb_spec 0 (lo + i)); [|lia].
  destruct (Z.ltb_spec i (Z.of_nat (Z.to_nat (hi - lo)))); [|lia].
  unfold len in Hhi.
  destruct (Z.ltb_spec (lo + i) (Z.of_nat (length (elems s)))); [|lia].
  cbn [andb]. do 2 f_equal. rewrite !nth_lookup, Helems. f_equal.
  rewrite lookup_take_lt, lookup_drop by lia. unfold backing.
  rewrite lookup_app_l by lia. f_equal. lia.
Qed.

(** The ISA identifier is the byte at offset [0x12] of the buffer; on an
    image whose word size is neither 32 nor 64 the read yields 0. *)
Lemma isa_field_is_byte a en c v :
  fieldValue (mkElf a en None c 0 None : Image) "isa" elfHeader 0 = Ret (v, None) ->
  v = 0 \/ index c 0x12 = Ret v.
Proof.
  intros H.
  destruct (Z.eq_dec a 32) as [Ha | Ha32]; [|destruct (Z.eq_dec a 64) as [Ha | Ha64]].
  1,2: rewrite (fieldValue_shape _ "isa" elfHeader 0 0x12 1) in H;
    [ | first [ left; split; [exact Ha | split; reflexivity]
              | right; split; [exact Ha | split; reflexivity] ] | lia | lia | lia ];
    cbn [contents] in H;
    change (18 + 0 + 1) with 19 in H; change (18 + 0) with 18 in H;
    destruct (Z.ltb_spec (len c) 19); [discriminate|];
    destruct (reslice c 18 19) as [value|p|] eqn:Hr; cbn [bind] in H; try discriminate;
    rewrite (index_reslice c 18 19 value 0 Hr) in H by lia;
    change (18 + 0) with 18 in H;
    destruct (index c 18) as [b|p|]; cbn [bind] in H; try discriminate;
    inversion H; subst; right; reflexivity.
  left. unfold fieldValue, bind in H. cbn [arch] in H.
  destruct (Z.eqb_spec a 32); [contradiction|].
  destruct (Z.eqb_spec a 64); [contradiction|].
  cbn [Z.eqb] in H. repeat case_match; inversion H; reflexivity.
Qed.

(** Unless the byte at offset [0x12], the ISA identifier, is ARM's, the
    mode hint changes nothing but the notices: [NewElf] has the same
    outcome, image or error or panic, with and without it. *)
Theorem NewElf_hint_ignored (elfContents : ByteSlice) (args1 args2 : gmap string string) :
  index elfContents 0x12 <> Ret 0x28 ->
  snd (NewElf Trie elfContents args1) = snd (NewElf Trie elfContents args2).
Proof.
  intros Hne. unfold NewElf.
  destruct (elfArch elfContents) as [[a [ea|]]|p|]; try reflexivity.
  destruct (elfEndianness elfContents) as [[en [ee|]]|p|]; try reflexivity.
  assert (Hisa : fieldValue (mkElf a en None elfContents 0 None : Image) "isa" elfHeader 0
                 <> Ret (0x28, None)).
  { intros H. apply isa_field_is_byte in H. destruct H as [H | H]; [lia|contradiction]. }
  pose proof (setISA_hint_ignored (mkElf a en None elfContents 0 None)
                (bool_decide (is_Some (args1 !! "---thumb")))
                (bool_decide (is_Some (args2 !! "---thumb"))) Hisa) as Hs.
  destruct (setISA _ (bool_decide (is_Some (args1 !! "---thumb")))) as [o1 r1].
  destruct (setISA _ (bool_decide (is_Some (args2 !! "---thumb")))) as [o2 r2].
  cbn [snd] in Hs. subst r2.
  destruct r1 as [[e [ei|]]|p|]; reflexivity.
Qed.

(** *** Composition of instruction streams *)

Lemma chunkLoop_acc fuel : forall sc w va i acc,
  chunkLoop fuel sc w va i acc
    = let* r := chunkLoop fuel sc w va i [] in Ret (acc ++ r).
Proof.
  induction fuel as [|fuel IH]; intros sc w va i acc; [reflexivity|].
  cbn [chunkLoop]. destruct (i <? len sc).
  - destruct (reslice sc i (i + w)) as [chunk|p|]; cbn [bind]; try reflexivity.
    rewrite IH. rewrite (IH _ _ _ _ ([] ++ _)).
    destruct (chunkLoop fuel sc w va (i + w) []) as [r|p|]; cbn [bind]; try reflexivity.
    rewrite <- app_assoc. reflexivity.
  - cbn [bind]. rewrite app_nil_r. reflexivity.
Qed.

Lemma segmentLoop_acc c w segs : forall acc,
  segmentLoop c w segs acc = let* r := segmentLoop c w segs [] in Ret (acc ++ r).
Proof.
  induction segs as [|seg segs IH]; intros acc.
  - cbn. rewrite app_nil_r. reflexivity.
  - cbn [segmentLoop].
    destruct (reslice c (Offset seg) (wrap (Offset seg + Size seg))) as [sc|p|];
      cbn [bind]; try reflexivity.
    rewrite chunkLoop_acc.
    destruct (chunkLoop _ sc w (VAddr seg) 0 []) as [r|p|]; cbn [bind]; try reflexivity.
    rewrite (IH (acc ++ r)), (IH r).
    destruct (segmentLoop c w segs []) as [r'|p|]; cbn [bind]; try reflexivity.
    rewrite <- app_assoc. reflexivity.
Qed.

Lemma segmentLoop_app c w segs1 segs2 : forall acc,
  segmentLoop c w (segs1 ++ segs2) acc
    = let* mid := segmentLoop c w segs1 acc in segmentLoop c w segs2 mid.
Proof.
  induction segs1 as [|seg segs1 IH]; intros acc; [reflexivity|].
  cbn [app segmentLoop].
  destruct (reslice c (Offset seg) (wrap (Offset seg + Size seg))) as [sc|p|];
    cbn [bind]; try reflexivity.
  destruct (chunkLoop _ sc w (VAddr seg) 0 acc) as [r|p|]; cbn [bind]; try reflexivity.
  apply IH.
Qed.

(** The stream of two segment lists put end to end is the stream of the
    first followed by the stream of the second; it panics when either
    does, the first one first. *)
Theorem InstructionStream_app (e : Image) segments1 segments2 :
  InstructionStream e (segments1 ++ segments2) =
    let* stream1 := InstructionStream e segments1 in
    let* stream2 := InstructionStream e segments2 in
    Ret (stream1 ++ stream2).
Proof.
  unfold InstructionStream. destruct (isa e) as [a|]; [|reflexivity].
  rewrite segmentLoop_app.
  destruct (segmentLoop (contents e) (InstructionSize a) segments1 []) as [r|p|];
    cbn [bind]; try reflexivity.
  apply segmentLoop_acc.
Qed.

(** *** Segments made of whole instructions *)

Lemma segmentChunks_length c w seg :
  length (segmentChunks c w seg) = chunkCount (Size seg) w.
Proof. unfold segmentChunks. rewrite length_map. apply chunkStarts_length. Qed.

(** When every segment lies inside the file and its size is a multiple of
    the instruction width, [InstructionStream] returns, and the stream has
    [Size / w] instructions for each segment. *)
Theorem InstructionStream_whole_chunks (e : Image) a segments :
  isa e = Some a ->
  let w := InstructionSize a in
  cap (contents e) < 2 ^ 63 ->
  Forall (fun seg => inFile (contents e) seg /\ Size seg mod w = 0) segments ->
  exists instructionStream,
    InstructionStream e segments = Ret instructionStream
    /\ length instructionStream
       = sum_list (map (fun seg => Z.to_nat (Size seg / w)) segments).
Proof.
  intros Hisa w Hcap Hall.
  pose proof (InstructionSize_pos a) as Hw. fold w in Hw.
  pose proof (len_le_cap (contents e)) as Hlc.
  unfold InstructionStream. rewrite Hisa. fold w.
  rewrite segmentLoop_returns; [|exact Hw|exact Hcap|].
  - eexists. split; [reflexivity|]. cbn [app].
    induction Hall as [|seg segs ((Ho & Hs & Hfit) & Hmod) _ IH]; [reflexivity|].
    cbn [map concat sum_list sum_list_with]. rewrite length_app, IH, segmentChunks_length.
    rewrite chunkCount_exact by lia. reflexivity.
  - eapply Forall_impl; [exact Hall|]. cbn beta.
    intros seg ((Ho & Hs & Hfit) & Hmod). split; [repeat split; assumption|].
    rewrite chunkCount_exact by lia.
    pose proof (Z.div_mod (Size seg) w ltac:(lia)) as Hd.
    pose proof (Z.div_pos (Size seg) w Hs Hw). nia.
Qed.

(** *** The width of opcodes *)

Lemma EncodeToString_length bs :
  String.length (EncodeToString bs) = (2 * length bs)%nat.
Proof.
  induction bs as [|b bs IH]; [reflexivity|].
  cbn [EncodeToString String.length length]. rewrite IH. lia.
Qed.

Lemma chunkLoop_widths fuel : forall sc w va i acc out,
  Forall (fun ins => String.length (Op ins) = Z.to_nat (2 * w)) acc ->
  chunkLoop fuel sc w va i acc = Ret out ->
  Forall (fun ins => String.length (Op ins) = Z.to_nat (2 * w)) out.
Proof.
  induction fuel as [|fuel IH]; intros sc w va i acc out Hacc H; [discriminate|].
  cbn [chunkLoop] in H. destruct (i <? len sc).
  - destruct (reslice sc i (i + w)) as [chunk|p|] eqn:Hr; cbn [bind] in H;
      try discriminate.
    eapply IH; [|exact H]. apply Forall_app. split; [exact Hacc|].
    constructor; [|constructor]. cbn [Op].
    rewrite EncodeToString_length, (reslice_length _ _ _ _ Hr). lia.
  - inversion H; subst. exact Hacc.
Qed.

Lemma segmentLoop_widths c w segs : forall acc out,
  Forall (fun ins => String.length (Op ins) = Z.to_nat (2 * w)) acc ->
  segmentLoop c w segs acc = Ret out ->
  Forall (fun ins => String.length (Op ins) = Z.to_nat (2 * w)) out.
Proof.
  induction segs as [|seg segs IH]; intros acc out Hacc H.
  - inversion H; subst. exact Hacc.
  - cbn [segmentLoop] in H.
    destruct (reslice c _ _) as [sc|p|]; cbn [bind] in H; try discriminate.
    destruct (chunkLoop _ sc w (VAddr seg) 0 acc) as [r|p|] eqn:Hc; cbn [bind] in H;
      try discriminate.
    eapply IH; [|exact H]. eapply chunkLoop_widths; eauto.
Qed.

(** Every instruction of a stream that [InstructionStream] returns has an
    opcode of exactly two hex digits per byte of the instruction width,
    whatever the segments are. *)
Theorem opcodes_have_instruction_width (e : Image) a segments instructionStream :
  isa e = Some a ->
  InstructionStream e segments = Ret instructionStream ->
  Forall (fun ins => String.length (Op ins) = Z.to_nat (2 * InstructionSize a))
         instructionStream.
Proof.
  intros Hisa H. unfold InstructionStream in H. rewrite Hisa in H.
  eapply segmentLoop_widths; [|exact H]. constructor.
Qed.

(** *** A table without executable entry *)

Lemma concat_replicate_nil {A : Type} n : concat (replicate n (@nil A)) = [].
Proof. induction n as [|n IH]; [reflexivity|]. cbn. exact IH. Qed.

(** When the table is not empty and every entry has readable flags with
    bit 0 clear, [locateExecutableSegments] returns no segment and no
    error, and [NewElf] fails with the error of an empty instruction
    stream. *)
Theorem no_executable_entry_rejected (elfContents : ByteSlice)
    (args : gmap string string) a en out (e : Image) tableOffset entrySize numEntries :
  elfArch elfContents = Ret (a, None) ->
  elfEndianness elfContents = Ret (en, None) ->
  setISA (mkElf a en None elfContents 0 None)
    (bool_decide (is_Some (args !! "---thumb"))) = (out, Ret (e, None)) ->
  fieldValue e "program header table offset" elfHeader 0 = Ret (tableOffset, None) ->
  fieldValue e "program header table entry size" elfHeader 0 = Ret (entrySize, None) ->
  fieldValue e "program header table num entries" elfHeader 0 = Ret (numEntries, None) ->
  numEntries <> 0 ->
  (forall k, 0 <= k < numEntries ->
     exists flags,
       fieldValue e "flags" programHeaderEntry (entryOffsetOf tableOffset entrySize k)
         = Ret (flags, None)
       /\ Z.testbit flags 0 = false) ->
  locateExecutableSegments e = Ret ([], None)
  /\ NewElf Trie elfContents args
     = (out, Ret (None, Some (New "no executable segments found"))).
Proof.
  intros Ha He Hi Ht Hs Hn Hne Hflags.
  assert (Hl : locateExecutableSegments e = Ret ([], None)).
  { rewrite (locate_after_header e _ _ _ Ht Hs Hn Hne).
    pose proof (locateLoop_returns e tableOffset entrySize
                  (replicate (Z.to_nat numEntries) []) 0 []) as Hr.
    rewrite length_replicate, concat_replicate_nil in Hr. apply Hr.
    intros k part Hk. apply lookup_replicate in Hk. destruct Hk as [-> Hk].
    destruct (Hflags (Z.of_nat k) ltac:(lia)) as (flags & Hf & Hb).
    rewrite Z.add_0_l. eapply NotExecutable; eauto. }
  split; [exact Hl|].
  apply NewElf_of_fails. eapply StreamEmpty; eauto.
  apply setISA_success in Hi. destruct Hi as [x ->]. reflexivity.
Qed.

(** *** Bounds on what the table walk returns *)

Lemma concat_length_le (parts : list (list segment)) :
  Forall (fun part => (length part <= 1)%nat) parts ->
  (length (concat parts) <= length parts)%nat.
Proof.
  induction 1 as [|part parts Hp _ IH]; [reflexivity|].
  cbn [concat length]. rewrite length_app. lia.
Qed.

Lemma locateLoop_below32 (e : Image) tbl esz r : forall i segs out err,
  arch e = 32 ->
  Forall (fun seg => VAddr seg < 2 ^ 32 /\ Offset seg < 2 ^ 32 /\ Size seg < 2 ^ 32) segs ->
  locateLoop e tbl esz r i segs = Ret (out, err) ->
  Forall (fun seg => VAddr seg < 2 ^ 32 /\ Offset seg < 2 ^ 32 /\ Size seg < 2 ^ 32) out.
Proof.
  induction r as [|r IH]; intros i segs out err Ha Hsegs H.
  - cbn in H. inversion H; subst. exact Hsegs.
  - cbn [locateLoop] in H. unfold orReturn in H.
    destruct (fieldValue e "flags" _ _) as [[flags [er|]]|p|] eqn:Hf;
      cbn [bind snd fst] in H; try discriminate.
    { inversion H. constructor. }
    destruct (_ >? _).
    + destruct (fieldValue e "segment offset" _ _) as [[off [er|]]|p|] eqn:Ho;
        cbn [bind snd fst] in H; try discriminate.
      { inversion H. constructor. }
      destruct (fieldValue e "virtual address" _ _) as [[va [er|]]|p|] eqn:Hv;
        cbn [bind snd fst] in H; try discriminate.
      { inversion H. constructor. }
      destruct (fieldValue e "file size" _ _) as [[sz [er|]]|p|] eqn:Hs;
        cbn [bind snd fst] in H; try discriminate.
      { inversion H. constructor. }
      apply IH in H; [exact H|exact Ha|]. apply Forall_app. split; [exact Hsegs|].
      constructor; [|constructor].
      apply (fieldValue_below _ _ _ _ _ _ 4) in Ho, Hv, Hs;
        try lia; try (left; split; [exact Ha|reflexivity]).
      cbn [VAddr Offset Size]. change (8 * 4) with 32 in *. lia.
    + apply IH in H; assumption.
Qed.

(** A successful table walk returns at most 65535 segments, and on a 32-bit
    image the three fields of each segment are below [2^32]. *)
Theorem locate_result_bounds (e : Image) segments :
  arch e = 32 \/ arch e = 64 ->
  locateExecutableSegments e = Ret (segments, None) ->
  Z.of_nat (length segments) <= 65535
  /\ (arch e = 32 ->
      Forall (fun seg => VAddr seg < 2 ^ 32 /\ Offset seg < 2 ^ 32 /\ Size seg < 2 ^ 32)
             segments).
Proof.
  intros Harch H. unfold locateExecutableSegments, orReturn in H.
  destruct (fieldValue e "program header table offset" _ _) as [[tbl [er|]]|p|];
    cbn [bind snd fst] in H; try discriminate.
  destruct (fieldValue e "program header table entry size" _ _) as [[esz [er|]]|p|];
    cbn [bind snd fst] in H; try discriminate.
  destruct (fieldValue e "program header table num entries" _ _) as [[n [er|]]|p|] eqn:Hn;
    cbn [bind snd fst] in H; try discriminate.
  destruct (n =? 0); [discriminate|].
  split.
  - assert (Hnb : 0 <= n < 2 ^ (8 * 2)).
    { apply (fieldValue_below _ _ _ _ _ _ 2) in Hn; [exact Hn| |lia].
      destruct Harch as [Ha | Ha]; [left | right]; (split; [exact Ha | reflexivity]). }
    change (2 ^ (8 * 2)) with 65536 in Hnb.
    apply locateLoop_complete in H. destruct H as (parts & Hlen & Hc & ->).
    cbn [app].
    assert (Hparts : Forall (fun part => (length part <= 1)%nat) parts).
    { apply Forall_lookup. intros k part Hk. apply Hc in Hk.
      destruct Hk; cbn; lia. }
    apply concat_length_le in Hparts. lia.
  - intros Ha. eapply locateLoop_below32; [exact Ha| |exact H]. constructor.
Qed.

(** *** Table walks that cannot panic *)

Lemma fieldValue_returns (e : Image) field table base off size :
  (arch e = 32 /\ off = offset32 (lookupField table field)
               /\ size = size32 (lookupField table field))
  \/ (arch e = 64 /\ off = offset64 (lookupField table field)
                  /\ size = size64 (lookupField table field)) ->
  endianness e = "big" \/ endianness e = "little" ->
  size = 1 \/ size = 2 \/ size = 4 \/ size = 8 ->
  0 <= off + base -> off + base + size < 2 ^ 63 ->
  exists r, fieldValue e field table base = Ret r.
Proof.
  intros Harch Hend Hsize Hlo Hhi.
  destruct (fieldValue_in_range e field table base off size Harch Hend Hsize Hlo Hhi)
    as [Herr Hok].
  destruct (Z_lt_dec (len (contents e)) (off + base + size)) as [Hlt | Hge].
  - eexists. apply Herr. exact Hlt.
  - destruct Hok as [v Hv]; [lia|]. eexists. exact Hv.
Qed.

(** Solves the side conditions of [fieldValue_returns] for a field whose
    offsets and sizes are given as numerals. *)
Ltac field_returns Harch Hend off32 size32 off64 size64 :=
  destruct Harch as [Harch | Harch];
  [ eapply (fieldValue_returns _ _ _ _ off32 size32);
    [ left; split; [exact Harch | split; reflexivity] | exact Hend | lia | lia | lia ]
  | eapply (fieldValue_returns _ _ _ _ off64 size64);
    [ right; split; [exact Harch | split; reflexivity] | exact Hend | lia | lia | lia ] ].

Lemma entry_field_returns (e : Image) field base :
  arch e = 32 \/ arch e = 64 ->
  endianness e = "big" \/ endianness e = "little" ->
  In field ["flags"; "segment offset"; "virtual address"; "file size"] ->
  0 <= base < 2 ^ 63 - 64 ->
  exists r, fieldValue e field programHeaderEntry base = Ret r.
Proof.
  intros Harch Hend Hin Hbase.
  destruct Hin as [<- | [<- | [<- | [<- | []]]]].
  - field_returns Harch Hend 0x18 4 0x04 4.
  - field_returns Harch Hend 0x04 4 0x08 8.
  - field_returns Harch Hend 0x08 4 0x10 8.
  - field_returns Harch Hend 0x10 4 0x20 8.
Qed.

Lemma locateLoop_never_panics (e : Image) tbl esz r : forall i segs,
  arch e = 32 \/ arch e = 64 ->
  endianness e = "big" \/ endianness e = "little" ->
  (forall k, i <= k < i + Z.of_nat r -> 0 <= entryOffsetOf tbl esz k < 2 ^ 63 - 64) ->
  exists res, locateLoop e tbl esz r i segs = Ret res.
Proof.
  induction r as [|r IH]; intros i segs Harch Hend Hoff; [eexists; reflexivity|].
  cbn [locateLoop]. fold (entryOffsetOf tbl esz i). unfold orReturn.
  pose proof (Hoff i ltac:(lia)) as Hi.
  assert (Hrest : forall k, i + 1 <= k < i + 1 + Z.of_nat r ->
                    0 <= entryOffsetOf tbl esz k < 2 ^ 63 - 64)
    by (intros k Hk; apply Hoff; lia).
  destruct (entry_field_returns e "flags" _ Harch Hend ltac:(cbn; tauto) Hi)
    as [[flags [er|]] ->]; cbn [bind snd fst]; [eexists; reflexivity|].
  destruct (_ >? _); [|apply IH; assumption].
  destruct (entry_field_returns e "segment offset" _ Harch Hend ltac:(cbn; tauto) Hi)
    as [[off [er|]] ->]; cbn [bind snd fst]; [eexists; reflexivity|].
  destruct (entry_field_returns e "virtual address" _ Harch Hend ltac:(cbn; tauto) Hi)
    as [[va [er|]] ->]; cbn [bind snd fst]; [eexists; reflexivity|].
  destruct (entry_field_returns e "file size" _ Harch Hend ltac:(cbn; tauto) Hi)
    as [[sz [er|]] ->]; cbn [bind snd fst]; [eexists; reflexivity|].
  apply IH; assumption.
Qed.

(** On a 32-bit image, and on a 64-bit image whose table offset is below
    [2^62], [locateExecutableSegments] never panics: it returns its
    segments or an error, whatever the rest of the buffer holds. *)
Theorem locate_never_panics (e : Image) :
  endianness e = "big" \/ endianness e = "little" ->
  arch e = 32
  \/ (arch e = 64
      /\ forall tableOffset,
           fieldValue e "program header table offset" elfHeader 0
             = Ret (tableOffset, None) ->
           tableOffset < 2 ^ 62) ->
  exists result, locateExecutableSegments e = Ret result.
Proof.
  intros Hend Hcase.
  assert (Harch : arch e = 32 \/ arch e = 64) by tauto.
  unfold locateExecutableSegments, orReturn.
  assert (Ht : exists r, fieldValue e "program header table offset" elfHeader 0 = Ret r).
  { clear Hcase. field_returns Harch Hend 0x1c 4 0x20 8. }
  destruct Ht as [[tbl [er|]] Ht]; rewrite Ht; cbn [bind snd fst];
    [eexists; reflexivity|].
  assert (Hs : exists r, fieldValue e "program header table entry size" elfHeader 0 = Ret r).
  { clear Hcase. field_returns Harch Hend 0x2a 2 0x36 2. }
  destruct Hs as [[esz [er|]] Hs]; rewrite Hs; cbn [bind snd fst];
    [eexists; reflexivity|].
  assert (Hn : exists r, fieldValue e "program header table num entries" elfHeader 0 = Ret r).
  { clear Hcase. field_returns Harch Hend 0x2c 2 0x38 2. }
  destruct Hn as [[n [er|]] Hn]; rewrite Hn; cbn [bind snd fst];
    [eexists; reflexivity|].
  destruct (n =? 0); [eexists; reflexivity|].
  assert (Hesz : 0 <= esz < 2 ^ (8 * 2)).
  { apply (fieldValue_below _ _ _ _ _ _ 2) in Hs; [exact Hs| |lia].
    destruct Harch as [Ha | Ha]; [left | right]; (split; [exact Ha | reflexivity]). }
  assert (Hnb : 0 <= n < 2 ^ (8 * 2)).
  { apply (fieldValue_below _ _ _ _ _ _ 2) in Hn; [exact Hn| |lia].
    destruct Harch as [Ha | Ha]; [left | right]; (split; [exact Ha | reflexivity]). }
  assert (Htbl : 0 <= tbl < 2 ^ 62).
  { destruct Hcase as [Ha | [Ha Hlow]].
    - apply (fieldValue_below _ _ _ _ _ _ 4) in Ht; [|left; split; [exact Ha | reflexivity]|lia].
      change (2 ^ (8 * 4)) with 4294967296 in Ht.
      change (2 ^ 62) with 4611686018427387904. lia.
    - split; [|apply Hlow; exact Ht].
      apply (fieldValue_below _ _ _ _ _ _ 8) in Ht; [lia|right; split; [exact Ha | reflexivity]|lia]. }
  change (2 ^ (8 * 2)) with 65536 in *.
  change (2 ^ 62) with 4611686018427387904 in Htbl.
  apply locateLoop_never_panics; [exact Harch | exact Hend |].
  intros k Hk. rewrite entryOffsetOf_exact by nia.
  change (2 ^ 63 - 64) with 9223372036854775744. nia.
Qed.

(** *** Opcodes determine their bytes *)

Lemma decodePair_digits b :
  decodePair (hexDigit (Z.shiftr (byteVal b) 4)) (hexDigit (Z.land (byteVal b) 0x0f))
    = Some b.
Proof. destruct b; reflexivity. Qed.

Lemma decodeHex_EncodeToString bs : decodeHex (EncodeToString bs) = Some bs.
Proof.
  induction bs as [|b bs IH]; [reflexivity|].
  cbn [EncodeToString decodeHex]. rewrite decodePair_digits, IH. reflexivity.
Qed.

(** Two byte sequences with the same hex encoding are the same sequence:
    equal opcodes stand for equal instruction bytes. *)
Theorem EncodeToString_injective bs1 bs2 :
  EncodeToString bs1 = EncodeToString bs2 -> bs1 = bs2.
Proof.
  intros H. apply (f_equal decodeHex) in H.
  rewrite !decodeHex_EncodeToString in H. congruence.
Qed.

(** *** The find command *)

(** [ValidArgs] accepts exactly the argument maps made of the single key
    "default". *)
Theorem ValidArgs_single_default (f : cli.Find) :
  cli.ValidArgs f = true <-> exists target, cli.args f = {[ "default" := target ]}.
Proof.
  unfold cli.ValidArgs. split.
  - destruct (Z.eqb_spec (Z.of_nat (size (cli.args f))) 1) as [Hsize | Hsize];
      cbn [negb]; [|discriminate].
    intros H. apply bool_decide_eq_true in H. destruct H as [target Ht].
    exists target.
    assert (Hdel : delete "default" (cli.args f) = ∅).
    { apply map_size_empty_inv. rewrite map_size_delete, Ht. lia. }
    rewrite <- (insert_id _ _ _ Ht), <- insert_delete_eq, Hdel.
    apply insert_empty.
  - intros [target ->]. rewrite map_size_singleton. cbn [Z.of_nat Z.eqb negb].
    apply bool_decide_eq_true. rewrite lookup_singleton_eq. eexists. reflexivity.
Qed.

(** [Execute] prints exactly when it succeeds: one line with a nil error,
    and nothing with an error; without a current file the error is
    reported without a look at the trie. *)
Theorem Execute_prints_on_success
    (TrieFind : option TrieNode -> string -> option ISA -> outcome (Z * option error))
    (f : cli.Find) (state : cli.GlobalState) out err :
  cli.Execute TrieFind f (Some state) = (out, Ret err) ->
  (err = None /\ exists line, out = [line])
  \/ (out = [] /\ exists er, err = Some er
      /\ (cli.CurrentFile state = None -> er = New "no target file specified")).
Proof.
  unfold cli.Execute. destruct (cli.CurrentFile state) as [currFile|].
  - destruct (TrieFind _ _ _) as [[vaddr [er|]]|p|]; intros H; inversion H; subst.
    + right. split; [reflexivity|]. exists er. split; [reflexivity|discriminate].
    + left. split; [reflexivity|]. eexists. reflexivity.
  - intros H. inversion H; subst. right. split; [reflexivity|].
    eexists. split; reflexivity.
Qed.

(** *** The bounds check below [2^63] *)

(** For a field that ends below [2^63], the bounds check of [fieldValue] is
    exact and the read cannot panic: the out-of-bounds error is returned
    exactly when the field ends after the end of the buffer, and a value
    with a nil error exactly when it does not. *)
Theorem fieldValue_bounds_check_exact (e : Image) field table base off size :
  (arch e = 32 /\ off = offset32 (lookupField table field)
               /\ size = size32 (lookupField table field))
  \/ (arch e = 64 /\ off = offset64 (lookupField table field)
                  /\ size = size64 (lookupField table field)) ->
  endianness e = "big" \/ endianness e = "little" ->
  size = 1 \/ size = 2 \/ size = 4 \/ size = 8 ->
  0 <= off + base -> off + base + size < 2 ^ 63 ->
  (len (contents e) < off + base + size <->
     fieldValue e field table base
       = Ret (0, Some (New "invalid ELF file: value offset outside file bounds")))
  /\ (off + base + size <= len (contents e) <->
     exists v, fieldValue e field table base = Ret (v, None)).
Proof.
  intros Harch Hend Hsize Hlo Hhi.
  destruct (fieldValue_in_range e field table base off size Harch Hend Hsize Hlo Hhi)
    as [Herr Hok].
  split; split.
  - exact Herr.
  - intros H. destruct (Z_lt_dec (len (contents e)) (off + base + size)) as [Hlt | Hge];
      [exact Hlt|].
    destruct Hok as [v Hv]; [lia|]. rewrite Hv in H. discriminate.
  - exact Hok.
  - intros [v Hv].
    destruct (Z_lt_dec (len (contents e)) (off + base + size)) as [Hlt | Hge]; [|lia].
    rewrite (Herr Hlt) in Hv. discriminate.
Qed.

(** *** Segments beyond the capacity of the buffer *)

Lemma segmentLoop_panics_beyond_capacity c w segs : forall acc,
  0 < w ->
  Exists (fun seg => cap c < wrap (Offset seg + Size seg)) segs ->
  segmentLoop c w segs acc = Panic SliceBoundsOutOfRange.
Proof.
  induction segs as [|seg segs IH]; intros acc Hw Hex; [inversion Hex|].
  inversion Hex as [? ? Hhere | ? ? Hlater]; subst.
  - apply segmentLoop_beyond_capacity. exact Hhere.
  - cbn [segmentLoop]. unfold reslice. destruct (_ && _); [|reflexivity].
    cbn [bind]. rewrite chunkLoop_run; [|lia|lia|lia|].
    + cbv zeta. destruct (_ || _); [|reflexivity]. cbn [bind]. apply IH; assumption.
    + match goal with |- len ?s - 0 < _ => pose proof (len_nonneg s) end. lia.
Qed.

(** A segment list that holds a segment ending beyond the capacity of the
    buffer never yields a stream: [InstructionStream] panics on it,
    whatever the other segments are. *)
Theorem InstructionStream_panics_beyond_capacity (e : Image) a segments :
  isa e = Some a ->
  Exists (fun seg => cap (contents e) < wrap (Offset seg + Size seg)) segments ->
  InstructionStream e segments = Panic SliceBoundsOutOfRange.
Proof.
  intros Hisa Hex. unfold InstructionStream. rewrite Hisa.
  apply segmentLoop_panics_beyond_capacity; [apply InstructionSize_pos | exact Hex].
Qed.

(** *** A field that is not in the table *)


End Proofs.

Lemma elfArch_cases_witness :
  elfArch (mkSlice magicOnly []) = Panic IndexOutOfRange.
Proof.
  apply (proj1 (proj2 (elfArch_cases (mkSlice magicOnly [])))).
  reflexivity.
Defined.

(** Thumb is selected for the ARM image loaded with the hint; the image for
    an unsupported identifier is refused. *)
Lemma setISA_selection_witness :
  setISA (TrieNode := unit) (mkElf 32 "little" None (mkSlice armImage []) 0 None) true
    = ([], Ret (mkElf 32 "little" (Some Thumb) (mkSlice armImage []) 0 None, None))
  /\ NewElf noTrie (mkSlice mipsImage []) ∅
    = ([], Ret (None, Some ErrUnsupported)).
Proof.
  split.
  - refine (proj1 (setISA_selection (TrieNode := unit) noTrie
             (mkSlice armImage []) {["---thumb" := "true"]} 32 "little" 0x28
             _ _ _) _ _); vm_compute; reflexivity.
  - refine (proj2 (proj1 (proj2 (proj2 (proj2 (proj2
             (setISA_selection (TrieNode := unit) noTrie
                (mkSlice mipsImage []) ∅ 32 "little" 0x08 _ _ _)))))
             _ _ _ _)); vm_compute; congruence.
Defined.

Lemma empty_table_rejected_witness :
  NewElf noTrie (mkSlice emptyTable []) ∅
    = ([], Ret (None, Some (New "invalid ELF file: empty program header table"))).
Proof.
  refine (proj2 (empty_table_rejected (TrieNode := unit) noTrie
            (mkSlice emptyTable []) ∅ 64 "little" []
            (mkElf 64 "little" (Some X86) (mkSlice emptyTable []) 0 None)
            0x10000 56 _ _ _ _ _ _)); vm_compute; reflexivity.
Defined.

(** ** The theorems at work on the concrete images *)

Lemma NewElf_all_or_nothing_witness :
  NewElf noTrie (mkSlice [x7f; x45; x4c] []) ∅
    = ([], Ret (None,
         Some (New "invalid ELF file: file size less than offset to arch field"))).
Proof.
  apply (proj1 (NewElf_all_or_nothing noTrie (mkSlice [x7f; x45; x4c] []) ∅)).
  apply (ArchFails _ _ 0). reflexivity.
Defined.

Lemma locate_segments_in_file_order_witness :
  locateExecutableSegments (TrieNode := unit)
      (mkElf 64 "little" (Some X86) (mkSlice threeEntries []) 0 None)
    = Ret ([mkSegment 0x1000 0xe8 2; mkSegment 0x3000 0xec 2], None).
Proof.
  apply (proj2 (locate_segments_in_file_order
                  (mkElf 64 "little" (Some X86) (mkSlice threeEntries []) 0 None)
                  0x40 56 3 eq_refl eq_refl eq_refl ltac:(discriminate) _)).
  exists [[mkSegment 0x1000 0xe8 2]; []; [mkSegment 0x3000 0xec 2]].
  split; [reflexivity|]. split; [|reflexivity].
  intros [|[|[|index]]] part Hpart; inversion Hpart; subst.
  - apply (Executable _ _ 5); reflexivity.
  - apply (NotExecutable _ _ 6); reflexivity.
  - apply (Executable _ _ 1); reflexivity.
Defined.

Lemma nonexecutable_entry_not_read_witness :
  let e := mkElf 64 "little" (Some X86) (mkSlice truncatedEntry []) 0 None in
  let outOfBounds := New "invalid ELF file: value offset outside file bounds" in
  fieldValue e "segment offset" programHeaderEntry 0x78 = Ret (0, Some outOfBounds)
  /\ fieldValue e "virtual address" programHeaderEntry 0x78 = Ret (0, Some outOfBounds)
  /\ fieldValue e "file size" programHeaderEntry 0x78 = Ret (0, Some outOfBounds)
  /\ NewElf noTrie (mkSlice truncatedEntry []) ∅
    = ([], Ret (Some (withTrie e (Some tt)), None)).
Proof.
  split; [reflexivity|]. split; [reflexivity|]. split; [reflexivity|].
  refine (proj2 (nonexecutable_entry_not_read noTrie (mkSlice truncatedEntry []) ∅
            64 "little" []
            (mkElf 64 "little" (Some X86) (mkSlice truncatedEntry []) 0 None)
            0x40 56 2 1 4 eq_refl eq_refl eq_refl eq_refl eq_refl eq_refl
            ltac:(lia) eq_refl eq_refl)
          [mkSegment 0x400000 0 4]
          [mkInstruction "7f" 0x400000; mkInstruction "45" 0x400001;
           mkInstruction "4c" 0x400002; mkInstruction "46" 0x400003]
          eq_refl eq_refl ltac:(discriminate)).
Defined.

Lemma instruction_of_chunk_witness :
  segmentChunks (mkSlice armImage []) 4 (mkSegment 0x8000 0x54 8) !! 1%nat
    = Some (mkInstruction "1eff2fe1" 0x8004).
Proof.
  assert (Hin : Forall uintSegment [mkSegment 0x8000 0x54 8]).
  { constructor; [|constructor]. unfold uintSegment, isUint. cbn. lia. }
  destruct (instruction_of_chunk (TrieNode := unit)
              (mkElf 32 "little" (Some ARM) (mkSlice armImage []) 0 None) ARM
              [mkSegment 0x8000 0x54 8]
              [mkInstruction "0110a0e1" 0x8000; mkInstruction "1eff2fe1" 0x8004]
              eq_refl Hin eq_refl) as (_ & H & _).
  destruct (H (mkSegment 0x8000 0x54 8) 1) as [H1 _].
  - left. reflexivity.
  - lia.
  - vm_compute. congruence.
  - vm_compute. congruence.
  - exact H1.
Defined.

Lemma trailing_remainder_not_dropped_witness :
  (exists ins,
     InstructionStream (TrieNode := unit)
       (mkElf 32 "little" (Some ARM) (mkSlice armRemainder []) 0 None)
       [mkSegment 0x8000 0x54 5] = Ret ins
     /\ length ins = 2%nat)
  /\ InstructionStream (TrieNode := unit)
       (mkElf 32 "little" (Some ARM) (mkSlice armRemainderCut []) 0 None)
       [mkSegment 0x8000 0x54 5] = Panic SliceBoundsOutOfRange.
Proof.
  split.
  - refine (proj1 (trailing_remainder_not_dropped (TrieNode := unit)
              (mkElf 32 "little" (Some ARM) (mkSlice armRemainder []) 0 None) ARM
              (mkSegment 0x8000 0x54 5) eq_refl eq_refl _ _) _).
    + repeat split; vm_compute; congruence.
    + vm_compute. congruence.
    + vm_compute. congruence.
  - refine (proj2 (trailing_remainder_not_dropped (TrieNode := unit)
              (mkElf 32 "little" (Some ARM) (mkSlice armRemainderCut []) 0 None) ARM
              (mkSegment 0x8000 0x54 5) eq_refl eq_refl _ _) _).
    + repeat split; vm_compute; congruence.
    + vm_compute. congruence.
    + vm_compute. reflexivity.
Defined.

(** ** Further theorems at work on the concrete images *)

Lemma elfEndianness_cases_witness :
  elfEndianness (mkSlice (magicOnly ++ [x01]) []) = Panic IndexOutOfRange.
Proof.
  apply (proj1 (proj2 (elfEndianness_cases (mkSlice (magicOnly ++ [x01]) [])))).
  reflexivity.
Defined.

Lemma fieldValue_decodes_witness :
  fieldValue (TrieNode := unit)
      (mkElf 32 "little" (Some ARM) (mkSlice armImage []) 0 None)
      "virtual address" programHeaderEntry 0x34 = Ret (0x8000, None)
  /\ fieldValue (TrieNode := unit)
      (mkElf 32 "big" (Some ARM) (mkSlice armImageBE []) 0 None)
      "virtual address" programHeaderEntry 0x34 = Ret (0x8000, None).
Proof.
  split.
  - refine (eq_trans
      (fieldValue_decodes (TrieNode := unit)
         (mkElf 32 "little" (Some ARM) (mkSlice armImage []) 0 None)
         "virtual address" programHeaderEntry 0x34 0x08 4 _ _ _ _ _ _) _).
    + left. repeat split.
    + right. reflexivity.
    + right. right. left. reflexivity.
    + lia.
    + vm_compute. congruence.
    + vm_compute. reflexivity.
    + reflexivity.
  - refine (eq_trans
      (fieldValue_decodes (TrieNode := unit)
         (mkElf 32 "big" (Some ARM) (mkSlice armImageBE []) 0 None)
         "virtual address" programHeaderEntry 0x34 0x08 4 _ _ _ _ _ _) _).
    + left. repeat split.
    + left. reflexivity.
    + right. right. left. reflexivity.
    + lia.
    + vm_compute. congruence.
    + vm_compute. reflexivity.
    + reflexivity.
Defined.

Lemma fieldValue_bounds_check_exact_witness :
  fieldValue (TrieNode := unit)
      (mkElf 64 "little" (Some X86) (mkSlice truncatedEntry []) 0 None)
      "file size" programHeaderEntry 0x78
    = Ret (0, Some (New "invalid ELF file: value offset outside file bounds")).
Proof.
  refine (proj1 (proj1 (fieldValue_bounds_check_exact (TrieNode := unit)
            (mkElf 64 "little" (Some X86) (mkSlice truncatedEntry []) 0 None)
            "file size" programHeaderEntry 0x78 0x20 8 _ _ _ _ _)) _).
  - right. repeat split.
  - right. reflexivity.
  - right. right. right. reflexivity.
  - lia.
  - lia.
  - vm_compute. reflexivity.
Defined.

Lemma locate_error_without_segments_witness :
  @nil segment = []
  /\ (New "invalid ELF file: empty program header table"
        = New "invalid ELF file: value offset outside file bounds"
      \/ New "invalid ELF file: empty program header table"
        = New "invalid ELF file: empty program header table").
Proof.
  apply (locate_error_without_segments (TrieNode := unit)
           (mkElf 64 "little" (Some X86) (mkSlice emptyTable []) 0 None)).
  reflexivity.
Defined.

Lemma NewElf_error_values_witness :
  In ErrUnsupported
    [ New "invalid ELF file: file size less than offset to arch field";
      New "invalid ELF file: arch field not 32 or 64";
      New "invalid ELF file: file size less than offset to endianness field";
      New endiannessMessage;
      New "invalid ELF file: value offset outside file bounds";
      New "invalid ELF file: empty program header table";
      ErrUnsupported;
      New "no executable segments found" ].
Proof.
  apply (NewElf_error_values noTrie (mkSlice mipsImage []) ∅ [] None).
  vm_compute. reflexivity.
Defined.

Lemma NewElf_image_invariant_witness :
  exists img,
    NewElf noTrie (mkSlice armImage []) ∅ = ([armNotice], Ret (Some img, None))
    /\ contents img = mkSlice armImage []
    /\ (arch img = 32 \/ arch img = 64)
    /\ programHeaderTableOffset img = 0.
Proof.
  eexists. split; [vm_compute; reflexivity|].
  match goal with
  | |- contents ?img = _ /\ _ =>
      destruct (NewElf_image_invariant noTrie (mkSlice armImage []) ∅ [armNotice] img)
        as (Hc & Ha & _ & Hp & _)
  end.
  - vm_compute. reflexivity.
  - split; [exact Hc|]. split; [exact Ha | exact Hp].
Defined.

Lemma NewElf_hint_ignored_witness :
  snd (NewElf noTrie (mkSlice scenarioImage []) ∅)
    = snd (NewElf noTrie (mkSlice scenarioImage []) {["---thumb" := "true"]}).
Proof.
  apply NewElf_hint_ignored. vm_compute. congruence.
Defined.

Lemma InstructionStream_whole_chunks_witness :
  exists instructionStream,
    InstructionStream (TrieNode := unit)
      (mkElf 32 "little" (Some ARM) (mkSlice armImage []) 0 None)
      [mkSegment 0x8000 0x54 8] = Ret instructionStream
    /\ length instructionStream = 2%nat.
Proof.
  refine (InstructionStream_whole_chunks (TrieNode := unit)
            (mkElf 32 "little" (Some ARM) (mkSlice armImage []) 0 None) ARM
            [mkSegment 0x8000 0x54 8] eq_refl _ _).
  - vm_compute. reflexivity.
  - constructor; [|constructor]. split; [|reflexivity].
    repeat split; vm_compute; congruence.
Defined.

Lemma opcodes_have_instruction_width_witness :
  Forall (fun ins => String.length (Op ins) = 8%nat)
    [mkInstruction "0110a0e1" 0x8000; mkInstruction "1eff2fe1" 0x8004].
Proof.
  apply (opcodes_have_instruction_width (TrieNode := unit)
           (mkElf 32 "little" (Some ARM) (mkSlice armRemainder []) 0 None) ARM
           [mkSegment 0x8000 0x54 5] _ eq_refl).
  vm_compute. reflexivity.
Defined.

Lemma InstructionStream_panics_beyond_capacity_witness :
  InstructionStream (TrieNode := unit)
      (mkElf 64 "little" (Some X86) (mkSlice oversizedSegment []) 0 None)
      [mkSegment 0x400000 0 4; mkSegment 0x1000 0x78 0x100]
    = Panic SliceBoundsOutOfRange.
Proof.
  apply (InstructionStream_panics_beyond_capacity (TrieNode := unit) _ X86);
    [reflexivity|].
  apply Exists_cons_tl, Exists_cons_hd. vm_compute. reflexivity.
Defined.

Lemma no_executable_entry_rejected_witness :
  NewElf noTrie (mkSlice dataOnly []) ∅
    = ([], Ret (None, Some (New "no executable segments found"))).
Proof.
  refine (proj2 (no_executable_entry_rejected noTrie (mkSlice dataOnly []) ∅
            64 "little" []
            (mkElf 64 "little" (Some X86) (mkSlice dataOnly []) 0 None)
            0x40 56 1 eq_refl eq_refl eq_refl eq_refl eq_refl eq_refl
            ltac:(discriminate) _)).
  intros k Hk. assert (k = 0) by lia. subst k.
  exists 6. split; reflexivity.
Defined.

Lemma locate_result_bounds_witness :
  Z.of_nat (length [mkSegment 0x8000 0x54 8]) <= 65535
  /\ (32 = 32 ->
      Forall (fun seg => VAddr seg < 2 ^ 32 /\ Offset seg < 2 ^ 32 /\ Size seg < 2 ^ 32)
             [mkSegment 0x8000 0x54 8]).
Proof.
  apply (locate_result_bounds (TrieNode := unit)
           (mkElf 32 "little" (Some ARM) (mkSlice armImage []) 0 None)).
  - left. reflexivity.
  - vm_compute. reflexivity.
Defined.

Lemma locate_never_panics_witness :
  exists result,
    locateExecutableSegments (TrieNode := unit)
      (mkElf 32 "little" (Some ARM) (mkSlice farTable32 []) 0 None) = Ret result.
Proof.
  apply locate_never_panics.
  - right. reflexivity.
  - left. reflexivity.
Defined.

Lemma EncodeToString_injective_witness : [x1e; xff; x2f; xe1] = [x1e; xff; x2f; xe1].
Proof. apply EncodeToString_injective. reflexivity. Defined.

Lemma ValidArgs_single_default_witness :
  cli.ValidArgs (cli.mkFind {["default" := "1eff2fe1"]}) = true.
Proof.
  apply (proj2 (ValidArgs_single_default (cli.mkFind {["default" := "1eff2fe1"]}))).
  eexists. reflexivity.
Defined.

Lemma Execute_prints_on_success_witness :
  let state := cli.mkGlobalState
                 (Some (mkElf 32 "little" (Some ARM) (mkSlice armImage []) 0 (Some tt))) in
  cli.Execute foundAt1004 (cli.mkFind {["default" := "1eff2fe1"]}) (Some state)
    = (["virtual address: 1004"], Ret None)
  /\ ((@None error = None /\ exists line, ["virtual address: 1004"] = [line])
      \/ (["virtual address: 1004"] = []
          /\ exists er, None = Some er
             /\ (cli.CurrentFile state = None -> er = New "no target file specified"))).
Proof.
  intros state. split; [vm_compute; reflexivity|].
  apply (Execute_prints_on_success (TrieNode := unit) foundAt1004
           (cli.mkFind {["default" := "1eff2fe1"]}) state).
  vm_compute. reflexivity.
Defined.

